(** * data_storage_sqlite: the schema, the write path and the query catalog

    A shallow embedding of [src/main.py]: the two tables of [SCHEMA], the
    bulk loaders [load_customers] / [load_orders] with the transaction scope
    [with conn:], the four statements of the [SQL] catalog and
    [demo_tx_and_params].

    Conventions of the embedding.
    - TEXT values are [string]s (byte sequences); the default collation
      BINARY compares them byte by byte, which is [String.compare].
    - REAL values are IEEE doubles, held as the rationals they are; SUM
      adds them as the engine does, one double addition after the other
      in the order it visits the rows, each rounded to the nearest double
      (see [real_add]).
    - The engine's strftime is modelled on the time strings of the form
      YYYY-MM-DD; its answer on every other text is a parameter of
      [monthly_revenue].
    - NULL is [None]; a column declared NOT NULL has a non-option field in
      the stored row.
    - A table is the list of its rows in insertion order.
    - Where the SQL text leaves the engine a choice that shows in the
      result (the order in which SUM visits the rows of a group, the order
      of rows with equal sort keys), the embedding follows SQLite on a
      file that has the indexes of [INDEXES], which [run_demo] creates
      before it runs the catalog. *)

From Stdlib Require Import ZArith QArith List String Ascii Bool Lia Lqa.
From Stdlib Require Import Permutation Sorted OrdersEx.
From Stdlib Require DecimalString DecimalNat DecimalFacts.
Import ListNotations.

Local Open Scope string_scope.
Local Open Scope list_scope.
Local Open Scope Z_scope.

(** ** Stored rows *)

(** A row of [customers]:
    customer_id INTEGER PRIMARY KEY, first_name TEXT NOT NULL,
    last_name TEXT NOT NULL, email TEXT UNIQUE NOT NULL, city TEXT,
    signup_date TEXT NOT NULL. *)
Record customer : Type := mkCustomer {
  c_customer_id : Z;
  c_first_name  : string;
  c_last_name   : string;
  c_email       : string;
  c_city        : option string;
  c_signup_date : string
}.

(** A row of [orders]:
    order_id INTEGER PRIMARY KEY, customer_id INTEGER NOT NULL,
    order_date TEXT NOT NULL, category TEXT NOT NULL, amount REAL NOT NULL,
    status TEXT NOT NULL CHECK(status IN ('PAID','CANCELLED','REFUNDED')),
    FOREIGN KEY (customer_id) REFERENCES customers(customer_id). *)
Record order : Type := mkOrder {
  o_order_id    : Z;
  o_customer_id : Z;
  o_order_date  : string;
  o_category    : string;
  o_amount      : Q;
  o_status      : string
}.

(** The content of the database file. *)
Record db : Type := mkDb {
  customers : list customer;
  orders    : list order
}.

Definition empty_db : db := mkDb [] [].

(** ** Comparison of SQL values *)

Definition text_eqb (a b : string) : bool := String.eqb a b.
Definition text_leb (a b : string) : bool := String.leb a b.

(** Equality of nullable TEXT as GROUP BY and PARTITION BY see it: two
    NULLs fall in the same group. *)
Definition opt_text_eqb (a b : option string) : bool :=
  match a, b with
  | None, None => true
  | Some x, Some y => text_eqb x y
  | _, _ => false
  end.

(** ORDER BY ... ASC on nullable TEXT: NULL sorts before every value. *)
Definition opt_text_leb (a b : option string) : bool :=
  match a, b with
  | None, _ => true
  | Some _, None => false
  | Some x, Some y => text_leb x y
  end.

Definition Qlt_bool (x y : Q) : bool := negb (Qle_bool y x).

(** ** REAL arithmetic *)

(** The double nearest to a rational, ties to the even mantissa: 53 bits
    of mantissa, exponents down to the subnormal numbers of step 2^-1074.
    The exponent is not bounded above: a sum beyond the largest double,
    which the engine turns into an infinity, is outside the model. *)
Definition round_double (q : Q) : Q :=
  let n := Z.abs (Qnum q) in
  let d := Zpos (Qden q) in
  if n =? 0 then 0%Q
  else
    let e0 := Z.log2 n - Z.log2 d in
    let above := if 0 <=? e0 then d * 2 ^ e0 <=? n
                 else d <=? n * 2 ^ (- e0) in
    let e := if above then e0 else e0 - 1 in
    let k := Z.max (e - 52) (-1074) in
    let num := if k <? 0 then n * 2 ^ (- k) else n in
    let den := if k <? 0 then d else d * 2 ^ k in
    let m0 := num / den in
    let r := num mod den in
    let m := if 2 * r <? den then m0
             else if den <? 2 * r then m0 + 1
             else if Z.even m0 then m0 else m0 + 1 in
    let v := Z.sgn (Qnum q) * m in
    Qred (if k <? 0 then Qmake v (Z.to_pos (2 ^ (- k)))
          else inject_Z (v * 2 ^ k)).

(** The addition of doubles: the exact sum, rounded. Adding zero leaves a
    double as it is. *)
Definition real_add (x y : Q) : Q :=
  if Qeq_bool y 0 then x else round_double (x + y).

(** ** Relational operators *)

Section Relational.
Context {A : Type}.

(** ORDER BY: insertion of a row in a list ordered by [leb]. SQL leaves
    the order of rows with equal keys open; this sort keeps them in their
    input order. *)
Fixpoint insert_by (leb : A -> A -> bool) (a : A) (l : list A) : list A :=
  match l with
  | [] => [a]
  | b :: l' => if leb a b then a :: b :: l' else b :: insert_by leb a l'
  end.

Fixpoint sort_by (leb : A -> A -> bool) (l : list A) : list A :=
  match l with
  | [] => []
  | a :: l' => insert_by leb a (sort_by leb l')
  end.

(** ROW_NUMBER(): consecutive numbers along a list, from [n]. *)
Fixpoint number_from (n : Z) (l : list A) : list (A * Z) :=
  match l with
  | [] => []
  | a :: l' => (a, n) :: number_from (n + 1) l'
  end.

Context {K : Type}.
Variable key_eqb : K -> K -> bool.
Variable key : A -> K.

(** The first row of every distinct key, in order of first occurrence. *)
Fixpoint distinct_by (l : list A) : list A :=
  match l with
  | [] => []
  | a :: l' =>
      a :: filter (fun b => negb (key_eqb (key b) (key a))) (distinct_by l')
  end.

(** The rows of [l] whose key is the key of [a]. *)
Definition same_key (a : A) (l : list A) : list A :=
  filter (fun b => key_eqb (key b) (key a)) l.

(** GROUP BY: one group per distinct key, given as a representative row
    (on which the bare columns of the SELECT list are evaluated) and the
    rows of the group, the representative included. *)
Definition group_by (l : list A) : list (A * list A) :=
  map (fun a => (a, same_key a l)) (distinct_by l).
End Relational.

(** ** The query catalog *)

(** FROM customers c JOIN orders o ON o.customer_id = c.customer_id, as
    the engine runs it for the queries grouped by customer: it scans the
    customers and looks up the orders of each, which it finds in the order
    of the orders table. *)
Definition orders_of (cid : Z) (os : list order) : list order :=
  filter (fun o => o_customer_id o =? cid) os.

Definition join_customers_orders (d : db) : list (customer * order) :=
  flat_map (fun c => map (pair c) (orders_of (c_customer_id c) (orders d)))
           (customers d).

(** The same join as the engine runs it for [category_city_matrix]: it
    scans the orders and looks up the customer of each by its key, so the
    joined rows, and the terms of a SUM over them, come in the order of
    the orders table. *)
Definition customers_of (cid : Z) (cs : list customer) : list customer :=
  filter (fun c => c_customer_id c =? cid) cs.

Definition join_orders_customers (d : db) : list (customer * order) :=
  flat_map (fun o => map (fun c => (c, o))
                         (customers_of (o_customer_id o) (customers d)))
           (orders d).

(** CASE WHEN status='PAID' THEN amount ELSE 0 END *)
Definition case_paid (o : order) : Q :=
  if text_eqb (o_status o) "PAID" then o_amount o else 0%Q.

(** SUM(...) over the rows of a group: the engine starts from 0.0 and adds
    the term of every row it visits to the sum so far. *)
Definition real_sum (l : list Q) : Q := fold_left real_add l 0%Q.

Definition paid_sum (os : list order) : Q := real_sum (map case_paid os).

(** c.first_name || ' ' || c.last_name *)
Definition full_name (c : customer) : string :=
  (c_first_name c ++ " " ++ c_last_name c)%string.

(** *** top_customers *)

Record top_row : Type := mkTopRow {
  tc_customer_id : Z;
  tc_customer    : string;
  tc_city        : option string;
  tc_revenue     : Q
}.

Definition top_key (r : customer * order) : Z * string * option string :=
  (c_customer_id (fst r), full_name (fst r), c_city (fst r)).

Definition top_key_eqb (k1 k2 : Z * string * option string) : bool :=
  let '(i1, n1, c1) := k1 in
  let '(i2, n2, c2) := k2 in
  (i1 =? i2) && text_eqb n1 n2 && opt_text_eqb c1 c2.

Definition top_aggregate (g : (customer * order) * list (customer * order))
  : top_row :=
  let c := fst (fst g) in
  mkTopRow (c_customer_id c) (full_name c) (c_city c)
           (paid_sum (map snd (snd g))).

(** ORDER BY revenue DESC *)
Definition revenue_desc (a b : top_row) : bool :=
  Qle_bool (tc_revenue b) (tc_revenue a).

Definition top_customers (d : db) : list top_row :=
  let grouped := group_by top_key_eqb top_key (join_customers_orders d) in
  let having  := filter (fun r => Qlt_bool 0 (tc_revenue r))
                        (map top_aggregate grouped) in
  firstn 10 (sort_by revenue_desc having).

(** *** monthly_revenue *)













(** *** category_city_matrix *)

Record matrix_row : Type := mkMatrixRow {
  mx_city     : option string;
  mx_category : string;
  mx_revenue  : Q
}.

Definition matrix_key (r : customer * order) : option string * string :=
  (c_city (fst r), o_category (snd r)).

Definition matrix_key_eqb (k1 k2 : option string * string) : bool :=
  opt_text_eqb (fst k1) (fst k2) && text_eqb (snd k1) (snd k2).

Definition matrix_aggregate
  (g : (customer * order) * list (customer * order)) : matrix_row :=
  mkMatrixRow (c_city (fst (fst g))) (o_category (snd (fst g)))
              (paid_sum (map snd (snd g))).

(** ORDER BY c.city, o.category *)
Definition city_category_asc (a b : matrix_row) : bool :=
  if opt_text_eqb (mx_city a) (mx_city b)
  then text_leb (mx_category a) (mx_category b)
  else opt_text_leb (mx_city a) (mx_city b).

Definition category_city_matrix (d : db) : list matrix_row :=
  let grouped := group_by matrix_key_eqb matrix_key (join_orders_customers d) in
  sort_by city_category_asc (map matrix_aggregate grouped).

(** *** window_rank_in_city *)

(** A row of the grouped subquery before the window function runs. *)
Record city_revenue : Type := mkCityRevenue {
  cr_city     : option string;
  cr_customer : string;
  cr_revenue  : Q
}.

Record rank_row : Type := mkRankRow {
  rk_city     : option string;
  rk_customer : string;
  rk_revenue  : Q;
  rk_rn       : Z
}.

(** GROUP BY c.city, c.customer_id *)
Definition rank_key (r : customer * order) : option string * Z :=
  (c_city (fst r), c_customer_id (fst r)).

Definition rank_key_eqb (k1 k2 : option string * Z) : bool :=
  opt_text_eqb (fst k1) (fst k2) && (snd k1 =? snd k2).

Definition rank_aggregate
  (g : (customer * order) * list (customer * order)) : city_revenue :=
  let c := fst (fst g) in
  mkCityRevenue (c_city c) (full_name c) (paid_sum (map snd (snd g))).

(** ORDER BY SUM(...) DESC inside the window. *)
Definition cr_revenue_desc (a b : city_revenue) : bool :=
  Qle_bool (cr_revenue b) (cr_revenue a).

Definition ranked (p : city_revenue * Z) : rank_row :=
  mkRankRow (cr_city (fst p)) (cr_customer (fst p)) (cr_revenue (fst p))
            (snd p).

(** ROW_NUMBER() OVER (PARTITION BY c.city ORDER BY SUM(...) DESC) *)
Definition row_number_in_city (rows : list city_revenue) : list rank_row :=
  flat_map
    (fun part => map ranked (number_from 1 (sort_by cr_revenue_desc (snd part))))
    (group_by opt_text_eqb cr_city rows).

(** The subquery [t]. *)
Definition window_subquery (d : db) : list rank_row :=
  let grouped := group_by rank_key_eqb rank_key (join_customers_orders d) in
  row_number_in_city (map rank_aggregate grouped).

(** ORDER BY city, rn *)
Definition city_rn_asc (a b : rank_row) : bool :=
  if opt_text_eqb (rk_city a) (rk_city b)
  then rk_rn a <=? rk_rn b
  else opt_text_leb (rk_city a) (rk_city b).

Definition window_rank_in_city (d : db) : list rank_row :=
  sort_by city_rn_asc (filter (fun r => rk_rn r <=? 3) (window_subquery d)).

(** ** The write path *)

(** The constraint failures of the engine. Python's [sqlite3] raises every
    one of them as the single exception class [sqlite3.IntegrityError];
    the constructor records which constraint the message names. *)
Inductive integrity_error : Type :=
| NotNullFailed (column : string)
| CheckFailed (table : string)
| UniqueFailed (column : string)
| ForeignKeyFailed.

(** The parameter tuples bound to the INSERT statements. A Python value may
    be [None], which binds NULL. The tuples are taken well typed for the
    declared column types. *)
Record customer_values : Type := mkCustomerValues {
  v_first_name  : option string;
  v_last_name   : option string;
  v_email       : option string;
  v_city        : option string;
  v_signup_date : option string
}.

Record order_values : Type := mkOrderValues {
  v_customer_id : option Z;
  v_order_date  : option string;
  v_category    : option string;
  v_amount      : option Q;
  v_status      : option string
}.

(** INTEGER PRIMARY KEY left out of the column list: the engine assigns one
    more than the largest key in the table, 1 in an empty table (the 64-bit
    limit of the key is not modelled). *)
Definition next_id (ids : list Z) : Z := 1 + fold_right Z.max 0 ids.

(** CHECK(status IN ('PAID','CANCELLED','REFUNDED')) *)
Definition status_check (s : string) : bool :=
  text_eqb s "PAID" || text_eqb s "CANCELLED" || text_eqb s "REFUNDED".

(** REFERENCES customers(customer_id), enforced since [connect] sets
    PRAGMA foreign_keys = ON. *)
Definition customer_exists (d : db) (cid : Z) : bool :=
  existsb (fun c => c_customer_id c =? cid) (customers d).

Definition email_taken (d : db) (e : string) : bool :=
  existsb (fun c => text_eqb (c_email c) e) (customers d).

(** INSERT INTO customers(first_name,last_name,email,city,signup_date)
    VALUES (?,?,?,?,?) on one parameter tuple. A failing statement leaves
    the tables as they were. *)
Definition insert_customer (d : db) (v : customer_values)
  : integrity_error + db :=
  match v_first_name v with
  | None => inl (NotNullFailed "customers.first_name")
  | Some f =>
    match v_last_name v with
    | None => inl (NotNullFailed "customers.last_name")
    | Some l =>
      match v_email v with
      | None => inl (NotNullFailed "customers.email")
      | Some e =>
        match v_signup_date v with
        | None => inl (NotNullFailed "customers.signup_date")
        | Some s =>
            if email_taken d e then inl (UniqueFailed "customers.email")
            else
              let id := next_id (map c_customer_id (customers d)) in
              inr (mkDb (customers d ++ [mkCustomer id f l e (v_city v) s])
                        (orders d))
        end
      end
    end
  end.

(** INSERT INTO orders(customer_id,order_date,category,amount,status)
    VALUES (?,?,?,?,?) on one parameter tuple. *)
Definition insert_order (d : db) (v : order_values) : integrity_error + db :=
  match v_customer_id v with
  | None => inl (NotNullFailed "orders.customer_id")
  | Some cid =>
    match v_order_date v with
    | None => inl (NotNullFailed "orders.order_date")
    | Some dt =>
      match v_category v with
      | None => inl (NotNullFailed "orders.category")
      | Some cat =>
        match v_amount v with
        | None => inl (NotNullFailed "orders.amount")
        | Some a =>
          match v_status v with
          | None => inl (NotNullFailed "orders.status")
          | Some st =>
              if negb (status_check st) then inl (CheckFailed "orders")
              else if negb (customer_exists d cid) then inl ForeignKeyFailed
              else
                let id := next_id (map o_order_id (orders d)) in
                inr (mkDb (customers d)
                          (orders d ++ [mkOrder id cid dt cat a st]))
          end
        end
      end
    end
  end.

(** A connection: the committed content of the file and the content the
    statements of this connection see, which runs ahead of the committed
    one while a transaction is open. *)
Record connection : Type := mkConnection {
  committed : db;
  current   : db
}.

(** [connect]: a connection on the file, no transaction open. *)
Definition connect (file : db) : connection := mkConnection file file.

Definition commit (conn : connection) : connection :=
  mkConnection (current conn) (current conn).

Definition rollback (conn : connection) : connection :=
  mkConnection (committed conn) (committed conn).

(** The outcome of running statements: the connection afterwards and the
    exception raised, if any. *)
Definition outcome : Type := (connection * option integrity_error)%type.

Section Statements.
Context {V : Type}.
Variable insert : db -> V -> integrity_error + db.

(** [conn.execute(insert, v)]: the statement opens a transaction when
    none is open and writes to the current content. *)
Definition execute (conn : connection) (v : V) : outcome :=
  match insert (current conn) v with
  | inr d' => (mkConnection (committed conn) d', None)
  | inl e => (conn, Some e)
  end.

(** [conn.executemany(insert, rows)]: the statement once per tuple, in
    order; the first failure raises and the remaining tuples are not
    tried. *)
Fixpoint executemany (conn : connection) (rows : list V) : outcome :=
  match rows with
  | [] => (conn, None)
  | v :: rows' =>
      match execute conn v with
      | (conn', None) => executemany conn' rows'
      | (conn', Some e) => (conn', Some e)
      end
  end.
End Statements.

(** [with conn: body]: commit when the body ends normally, roll back and
    let the exception through when it raises. *)
Definition with_conn (body : connection -> outcome) (conn : connection)
  : outcome :=
  match body conn with
  | (conn', None) => (commit conn', None)
  | (conn', Some e) => (rollback conn', Some e)
  end.

Definition load_customers (conn : connection) (rows : list customer_values)
  : outcome :=
  with_conn (fun c => executemany insert_customer c rows) conn.

Definition load_orders (conn : connection) (rows : list order_values)
  : outcome :=
  with_conn (fun c => executemany insert_order c rows) conn.

(** ** demo_tx_and_params *)

(** The tuple both INSERTs of the demo bind; [today] stands for
    [datetime.now().strftime("%Y-%m-%d")]. *)
Definition temporal (today : string) : customer_values :=
  mkCustomerValues (Some "Temporal") (Some "Test")
                   (Some "temporal@example.com") (Some "Santiago")
                   (Some today).

(** The two INSERTs inside [with conn:]. *)
Definition demo_body (today : string) (conn : connection) : outcome :=
  match execute insert_customer conn (temporal today) with
  | (conn1, None) => execute insert_customer conn1 (temporal today)
  | (conn1, Some e) => (conn1, Some e)
  end.

(** SELECT COUNT( * ) FROM customers WHERE city = ? *)
Definition count_customers_in_city (conn : connection) (city : string) : Z :=
  Z.of_nat (List.length
              (filter (fun c => opt_text_eqb (c_city c) (Some city))
                      (customers (current conn)))).

(** SELECT COUNT( * ) FROM customers *)
Definition count_customers (conn : connection) : Z :=
  Z.of_nat (List.length (customers (current conn))).

(** What the demo leaves behind: the connection, the IntegrityError its
    [except] clause caught (if the block raised) and the count it prints. *)
Record demo_result : Type := mkDemoResult {
  demo_conn   : connection;
  demo_caught : option integrity_error;
  demo_count  : Z
}.

Definition demo_tx_and_params (today : string) (conn : connection)
  : demo_result :=
  let '(conn', caught) := with_conn (demo_body today) conn in
  mkDemoResult conn' caught (count_customers_in_city conn' "Santiago").

(** ** Vocabulary of the properties and sample databases *)

(** A list in the order of [leb]: every row is before the rows after it. *)
Definition ordered_by {A : Type} (leb : A -> A -> bool) : list A -> Prop :=
  StronglySorted (fun a b => leb a b = true).

(** ORDER BY city, x: the order of the city first, then the order [leb2]
    of the second key among rows of the same city. *)
Definition city_then {A : Type} (city : A -> option string)
  (leb2 : A -> A -> bool) (a b : A) : bool :=
  if opt_text_eqb (city a) (city b) then leb2 a b
  else opt_text_leb (city a) (city b).

(** The rows the join gives for one customer. *)
Definition customer_rows (os : list order) (c : customer)
  : list (customer * order) :=
  map (pair c) (orders_of (c_customer_id c) os).

(** The group of one customer: none when the customer owns no order. *)
Definition customer_group (os : list order) (c : customer)
  : list ((customer * order) * list (customer * order)) :=
  match customer_rows os c with
  | [] => []
  | r :: _ => [(r, customer_rows os c)]
  end.

(** PRIMARY KEY of [customers]: no two rows share a customer_id. *)
Definition customers_pk (d : db) : Prop :=
  NoDup (map c_customer_id (customers d)).

Definition is_paid (o : order) : bool := text_eqb (o_status o) "PAID".

(** The conditional sum over the orders a customer owns. *)
Definition customer_revenue (d : db) (c : customer) : Q :=
  paid_sum (orders_of (c_customer_id c) (orders d)).

Definition has_order (d : db) (c : customer) : bool :=
  existsb (fun o => o_customer_id o =? c_customer_id c) (orders d).

(** The row of one customer, as the specification words it. *)
Definition revenue_row (d : db) (c : customer) : top_row :=
  mkTopRow (c_customer_id c) (full_name c) (c_city c) (customer_revenue d c).


(** The customers with a positive revenue, in table order. *)
Definition revenue_candidates (d : db) : list top_row :=
  filter (fun r => Qlt_bool 0 (tc_revenue r))
         (map (revenue_row d) (customers d)).

(** Two customers with PAID sums 100 and 50 and larger CANCELLED orders. *)
Definition two_customers_db : db :=
  mkDb [ mkCustomer 1 "Ana" "Soto" "user0@example.com" (Some "Santiago")
                    "2023-01-01";
         mkCustomer 2 "Luis" "Rojas" "user1@example.com" None "2023-01-02" ]
       [ mkOrder 1 1 "2023-06-01" "Books" 30 "PAID";
         mkOrder 2 1 "2023-06-02" "Home" 900 "CANCELLED";
         mkOrder 3 2 "2023-06-03" "Books" 100 "PAID";
         mkOrder 4 1 "2023-06-04" "Sports" 20 "PAID";
         mkOrder 5 2 "2023-06-05" "Beauty" 500 "CANCELLED" ].







(** The database without the rows of [customers] that carry the
    customer_id of [c]. *)
Definition without_customer (d : db) (c : customer) : db :=
  mkDb (filter (fun c' => negb (c_customer_id c' =? c_customer_id c))
               (customers d))
       (orders d).

(** A database where the customer 3 owns no order. *)
Definition idle_customer_db : db :=
  mkDb [ mkCustomer 1 "Ana" "Soto" "user0@example.com" (Some "Santiago")
                    "2023-01-01";
         mkCustomer 2 "Luis" "Rojas" "user1@example.com" None "2023-01-02";
         mkCustomer 3 "Carla" "Silva" "user2@example.com" (Some "Santiago")
                    "2023-01-03" ]
       [ mkOrder 1 1 "2023-06-01" "Books" 30 "PAID";
         mkOrder 2 2 "2023-06-03" "Books" 100 "PAID";
         mkOrder 3 2 "2023-06-05" "Beauty" 500 "CANCELLED" ].

(** The joined rows of one (city, category) cell. *)
Definition matrix_cell (d : db) (city : option string) (cat : string)
  : list (customer * order) :=
  filter (fun r => matrix_key_eqb (matrix_key r) (city, cat))
         (join_orders_customers d).

Definition cell_revenue (d : db) (city : option string) (cat : string) : Q :=
  paid_sum (map snd (matrix_cell d city cat)).






(** The grouped row of one customer, as the specification words it. *)
Definition city_row (d : db) (c : customer) : city_revenue :=
  mkCityRevenue (c_city c) (full_name c) (customer_revenue d c).

(** The customers that own an order, with their revenue. *)
Definition city_rows (d : db) : list city_revenue :=
  map (city_row d) (filter (has_order d) (customers d)).

(** Those of one city. *)
Definition city_customers (d : db) (k : option string) : list city_revenue :=
  filter (fun a => opt_text_eqb (cr_city a) k) (city_rows d).



(** Two customers of Santiago with the same name. *)
Definition namesakes_db : db :=
  mkDb [ mkCustomer 1 "Ana" "Soto" "user0@example.com" (Some "Santiago")
                    "2023-01-01";
         mkCustomer 2 "Ana" "Soto" "user1@example.com" (Some "Santiago")
                    "2023-01-02" ]
       [ mkOrder 1 1 "2023-06-01" "Books" 10 "PAID";
         mkOrder 2 2 "2023-06-02" "Books" 25 "PAID" ].

(** No transaction is open on the connection. *)
Definition idle (conn : connection) : Prop := current conn = committed conn.

(** A committed database with one customer and one order. *)
Definition seeded_db : db :=
  mkDb [ mkCustomer 1 "Ana" "Soto" "user0@example.com" (Some "Santiago")
                    "2023-01-01" ]
       [ mkOrder 1 1 "2023-06-01" "Books" 30 "PAID" ].

Definition demo_email : string := "temporal@example.com".

(** The connections the program can hold: a connection on a fresh file
    after [create_schema], then any sequence of its writes. *)
Inductive reachable : connection -> Prop :=
| reach_connect : reachable (connect empty_db)
| reach_load_customers conn rows :
    reachable conn -> reachable (fst (load_customers conn rows))
| reach_load_orders conn rows :
    reachable conn -> reachable (fst (load_orders conn rows))
| reach_demo today conn :
    reachable conn -> reachable (demo_conn (demo_tx_and_params today conn)).

(** One customer loaded, then a batch of one PAID order of amount -5. *)
Definition negative_amount_conn : connection :=
  fst (load_orders
         (fst (load_customers (connect empty_db)
                 [ mkCustomerValues (Some "Ana") (Some "Soto")
                                    (Some "user0@example.com")
                                    (Some "Santiago") (Some "2023-01-01") ]))
         [ mkOrderValues (Some 1) (Some "2023-06-01") (Some "Books")
                         (Some (-5)%Q) (Some "PAID") ]).

Definition positive_amount (o : order) : Prop := (0 < o_amount o)%Q.

(** ** The rest of the program: seeding and the plan text *)

Definition STATUSES : list string := ["PAID"; "CANCELLED"; "REFUNDED"].

(** The values [make_customers] and [make_orders] draw from the module's
    random generator, as arrays indexed by the row they go to. *)
Record draws : Type := mkDraws {
  d_first    : nat -> string;
  d_last     : nat -> string;
  d_city     : nat -> string;
  d_signup   : nat -> string;
  d_customer : nat -> Z;
  d_date     : nat -> string;
  d_category : nat -> string;
  d_amount   : nat -> Q;
  d_status   : nat -> string
}.

(** The decimal digits of [i], as the f-string writes an int. *)
Definition decimal (i : nat) : string :=
  DecimalString.NilZero.string_of_uint (Nat.to_uint i).

(** f"user{i}@example.com" *)
Definition user_email (i : nat) : string :=
  ("user" ++ decimal i ++ "@example.com")%string.

(** [make_customers]: row [i] of [range(n)]. *)
Definition make_customers (g : draws) (n : nat) : list customer_values :=
  map (fun i => mkCustomerValues (Some (d_first g i)) (Some (d_last g i))
                                 (Some (user_email i)) (Some (d_city g i))
                                 (Some (d_signup g i)))
      (seq 0 n).

(** [make_orders]: row [i] of [range(n)]. The argument n_customers of the
    source only bounds the draw of the customer_id, see [draws_in_range]. *)
Definition make_orders (g : draws) (n : nat) : list order_values :=
  map (fun i => mkOrderValues (Some (d_customer g i)) (Some (d_date g i))
                              (Some (d_category g i)) (Some (d_amount g i))
                              (Some (d_status g i)))
      (seq 0 n).

(** What the generator guarantees of the draws of [make_orders]:
    rng.integers(1, n_customers + 1) and rng.choice(STATUSES). *)
Definition draws_in_range (g : draws) (n_customers n_orders : nat) : Prop :=
  forall i, (i < n_orders)%nat ->
    1 <= d_customer g i <= Z.of_nat n_customers /\ In (d_status g i) STATUSES.

(** How [seed_db] ends: it returns early, it loads both tables, or an
    exception of a loader leaves it. *)
Inductive seed_outcome : Type :=
| SeedSkipped
| SeedLoaded
| SeedRaised (e : integrity_error).

(** [seed_db] on the content of the file: the connection it opens, the
    guard on COUNT( * ), the two loads, and the commit or rollback of the
    enclosing [with connect(...) as conn:]. The result is the content of
    the file afterwards. *)
Definition seed_db (g : draws) (file : db) (n_customers n_orders : nat)
  : db * seed_outcome :=
  let conn := connect file in
  if 0 <? count_customers conn then (committed (commit conn), SeedSkipped)
  else
    match load_customers conn (make_customers g n_customers) with
    | (conn1, Some e) => (committed (rollback conn1), SeedRaised e)
    | (conn1, None) =>
        match load_orders conn1 (make_orders g n_orders) with
        | (conn2, Some e) => (committed (rollback conn2), SeedRaised e)
        | (conn2, None) => (committed (commit conn2), SeedLoaded)
        end
    end.

(** ** Vocabulary of the further properties *)

(** The row an INSERT stores for a tuple, under the key [id]. *)
Definition customer_of_values (id : Z) (v : customer_values)
  : option customer :=
  match v_first_name v, v_last_name v, v_email v, v_signup_date v with
  | Some f, Some l, Some e, Some s => Some (mkCustomer id f l e (v_city v) s)
  | _, _, _, _ => None
  end.

Definition order_of_values (id : Z) (v : order_values) : option order :=
  match v_customer_id v, v_order_date v, v_category v, v_amount v,
        v_status v with
  | Some cid, Some dt, Some cat, Some a, Some st =>
      Some (mkOrder id cid dt cat a st)
  | _, _, _, _, _ => None
  end.

(** The rows of a batch under consecutive keys from [start]. *)
Definition stored_rows {V R : Type} (row : Z -> V -> option R) (start : Z)
  (rows : list V) : list R :=
  flat_map (fun p => match row (snd p) (fst p) with
                     | Some r => [r]
                     | None => []
                     end)
           (number_from start rows).

(** The e-mail addresses a batch binds. *)
Definition batch_emails (rows : list customer_values) : list string :=
  flat_map (fun v => match v_email v with
                     | Some e => [e]
                     | None => []
                     end) rows.

(** A tuple [insert_order] accepts next to the customers [cs]: no NULL in
    a NOT NULL column, a status of the enumeration, a customer that
    exists. *)
Definition order_accepted (cs : list customer) (v : order_values) : bool :=
  match order_of_values 0 v with
  | Some o => status_check (o_status o)
              && existsb (fun c => c_customer_id c =? o_customer_id o) cs
  | None => false
  end.

(** A tuple without NULL in a NOT NULL column of [customers]. *)
Definition customer_complete (v : customer_values) : bool :=
  match customer_of_values 0 v with
  | Some _ => true
  | None => false
  end.

(** The constraints of [SCHEMA] on the content of the tables. *)
Definition keys_unique (d : db) : Prop :=
  NoDup (map c_customer_id (customers d)) /\
  NoDup (map c_email (customers d)) /\
  NoDup (map o_order_id (orders d)).

Definition references_hold (d : db) : Prop :=
  forall o, In o (orders d) ->
    customer_exists d (o_customer_id o) = true /\
    In (o_status o) STATUSES.

(** ** Vocabulary and samples of the further properties *)

(** A batch of three orders, the second of a customer that is missing. *)
Definition orphan_batch : list order_values :=
  [ mkOrderValues (Some 1) (Some "2023-06-02") (Some "Home") (Some 12%Q)
                  (Some "PAID");
    mkOrderValues (Some 7) (Some "2023-06-03") (Some "Home") (Some 15%Q)
                  (Some "PAID");
    mkOrderValues (Some 1) (Some "2023-06-04") (Some "Home") (Some 18%Q)
                  (Some "PAID") ].

(** A batch of two orders of the customer 1. *)
Definition accepted_batch : list order_values :=
  [ mkOrderValues (Some 1) (Some "2023-06-02") (Some "Home") (Some 12%Q)
                  (Some "PAID");
    mkOrderValues (Some 1) (Some "2023-06-03") (Some "Books") (Some 15%Q)
                  (Some "REFUNDED") ].

(** The condition under which a batch of customers goes through: complete
    tuples with addresses different from each other and from those of the
    table. *)
Definition customers_accepted (d : db) (rows : list customer_values) : Prop :=
  forallb customer_complete rows = true /\
  NoDup (batch_emails rows) /\
  forall e, In e (batch_emails rows) -> email_taken d e = false.

(** A batch of two customers with the same address. *)
Definition duplicate_email_batch : list customer_values :=
  [ mkCustomerValues (Some "Luis") (Some "Rojas") (Some "luis@example.com")
                     (Some "Santiago") (Some "2023-02-01");
    mkCustomerValues (Some "Luisa") (Some "Rojas") (Some "luis@example.com")
                     None (Some "2023-02-02") ].

(** One customer loaded, then one order of that customer. *)
Definition loaded_conn : connection :=
  fst (load_orders
         (fst (load_customers (connect empty_db)
                 [ mkCustomerValues (Some "Ana") (Some "Soto")
                                    (Some "user0@example.com")
                                    (Some "Santiago") (Some "2023-01-01") ]))
         [ mkOrderValues (Some 1) (Some "2023-06-01") (Some "Books")
                         (Some 30%Q) (Some "PAID") ]).

(** The customers and the orders [seed_db] stores, row by row. *)
Definition seeded_customer (g : draws) (start : Z) (i : nat) : customer :=
  mkCustomer (start + Z.of_nat i) (d_first g i) (d_last g i) (user_email i)
             (Some (d_city g i)) (d_signup g i).

Definition seeded_order (g : draws) (start : Z) (i : nat) : order :=
  mkOrder (start + Z.of_nat i) (d_customer g i) (d_date g i)
          (d_category g i) (d_amount g i) (d_status g i).

(** Draws for three customers and two orders. *)
Definition sample_draws : draws :=
  mkDraws (fun _ => "Ana") (fun _ => "Soto") (fun _ => "Santiago")
          (fun _ => "2023-01-01")
          (fun i => 1 + Z.of_nat i) (fun _ => "2023-06-01")
          (fun _ => "Books") (fun _ => 25%Q) (fun _ => "PAID").

(** A customer whose only order is CANCELLED, next to a paying one. *)
Definition unpaid_customer_db : db :=
  mkDb [ mkCustomer 1 "Ana" "Soto" "user0@example.com" (Some "Santiago")
                    "2023-01-01";
         mkCustomer 2 "Luis" "Rojas" "user1@example.com" (Some "Santiago")
                    "2023-01-02" ]
       [ mkOrder 1 1 "2023-06-01" "Books" 30 "PAID";
         mkOrder 2 2 "2023-06-02" "Home" 45 "CANCELLED" ].

(** A row of EXPLAIN QUERY PLAN as the engine returns it: id, parent,
    notused, detail. The rows are the engine's; [explain_plan] is modelled
    on the rows it fetched. *)
Record plan_row : Type := mkPlanRow {
  pr_id      : Z;
  pr_parent  : Z;
  pr_notused : Z;
  pr_detail  : string
}.

Definition newline_char : ascii := "010"%char.

Definition newline : string := String newline_char EmptyString.

(** [explain_plan]: the last column of every row, joined by "\n". *)
Definition explain_plan (rows : list plan_row) : string :=
  String.concat newline (map pr_detail rows).

(** The lines of a text, cut at every newline. *)
Fixpoint split_lines (s : string) : list string :=
  match s with
  | EmptyString => [EmptyString]
  | String c s' =>
      if Ascii.eqb c newline_char then EmptyString :: split_lines s'
      else match split_lines s' with
           | l :: ls => String c l :: ls
           | [] => [String c EmptyString]
           end
  end.

Fixpoint has_newline (s : string) : bool :=
  match s with
  | EmptyString => false
  | String c s' => Ascii.eqb c newline_char || has_newline s'
  end.

(** Two steps of a plan. *)
Definition sample_plan : list plan_row :=
  [ mkPlanRow 3 0 0 "SCAN o USING INDEX idx_orders_date";
    mkPlanRow 12 0 0 "USE TEMP B-TREE FOR GROUP BY" ].






(** * Properties *)

(** ** ORDER BY *)

Section SortFacts.
Context {A : Type}.
Variable leb : A -> A -> bool.

Lemma insert_by_perm (a : A) (l : list A) :
  Permutation (insert_by leb a l) (a :: l).
Proof.
  induction l as [|b l IH]; simpl.
  - apply Permutation_refl.
  - destruct (leb a b).
    + apply Permutation_refl.
    + eapply perm_trans; [apply perm_skip, IH | apply perm_swap].
Qed.

Lemma sort_by_perm (l : list A) : Permutation (sort_by leb l) l.
Proof.
  induction l as [|a l IH]; simpl.
  - constructor.
  - eapply perm_trans; [apply insert_by_perm | now apply perm_skip].
Qed.

Lemma sort_by_in (l : list A) (a : A) : In a (sort_by leb l) <-> In a l.
Proof.
  split; apply Permutation_in;
    [apply sort_by_perm | apply Permutation_sym, sort_by_perm].
Qed.

Lemma sort_by_length (l : list A) :
  List.length (sort_by leb l) = List.length l.
Proof. apply Permutation_length, sort_by_perm. Qed.

Hypothesis leb_total : forall a b, leb a b = false -> leb b a = true.
Hypothesis leb_trans :
  forall a b c, leb a b = true -> leb b c = true -> leb a c = true.

Lemma insert_by_ordered (a : A) (l : list A) :
  ordered_by leb l -> ordered_by leb (insert_by leb a l).
Proof.
  unfold ordered_by. induction 1 as [|b l Hs IH Hb]; simpl.
  - repeat constructor.
  - destruct (leb a b) eqn:E.
    + constructor; [now constructor|].
      constructor; [exact E|].
      eapply Forall_impl; [|exact Hb]. intros c Hc. eauto.
    + constructor; [exact IH|].
      apply Forall_forall. intros c Hc.
      apply (Permutation_in _ (insert_by_perm a l)) in Hc.
      destruct Hc as [<-|Hc]; [now apply leb_total|].
      rewrite Forall_forall in Hb. now apply Hb.
Qed.

Lemma sort_by_ordered (l : list A) : ordered_by leb (sort_by leb l).
Proof.
  induction l as [|a l IH]; simpl.
  - constructor.
  - now apply insert_by_ordered.
Qed.

(** A list already in order is left as it is. *)
Lemma insert_by_head (a : A) (l : list A) :
  Forall (fun b => leb a b = true) l -> insert_by leb a l = a :: l.
Proof.
  destruct l as [|b l]; simpl; [reflexivity|].
  intros H. inversion H; subst. now rewrite H2.
Qed.

Lemma sort_by_ordered_id (l : list A) : ordered_by leb l -> sort_by leb l = l.
Proof.
  induction 1 as [|a l Hs IH Ha]; simpl; [reflexivity|].
  rewrite IH. now apply insert_by_head.
Qed.
End SortFacts.



(** ** GROUP BY *)

Lemma filter_comm {A} (p q : A -> bool) (l : list A) :
  filter p (filter q l) = filter q (filter p l).
Proof.
  induction l as [|a l IH]; simpl; [reflexivity|].
  destruct (p a) eqn:P, (q a) eqn:Q; simpl; rewrite ?P, ?Q, IH; reflexivity.
Qed.

Lemma filter_all {A} (p : A -> bool) (l : list A) :
  (forall a, In a l -> p a = true) -> filter p l = l.
Proof.
  induction l as [|a l IH]; simpl; intros H; [reflexivity|].
  rewrite (H a) by now left. f_equal. apply IH. auto.
Qed.

Lemma filter_none {A} (p : A -> bool) (l : list A) :
  (forall a, In a l -> p a = false) -> filter p l = [].
Proof.
  induction l as [|a l IH]; simpl; intros H; [reflexivity|].
  rewrite (H a) by now left. apply IH. auto.
Qed.

Section GroupFacts.
Context {A K : Type}.
Variable key_eqb : K -> K -> bool.
Variable key : A -> K.
Hypothesis key_eqb_eq : forall x y, key_eqb x y = true <-> x = y.


Lemma key_eqb_neq (x y : K) : key_eqb x y = false <-> x <> y.
Proof.
  split.
  - intros H E. apply key_eqb_eq in E. congruence.
  - intros H. destruct (key_eqb x y) eqn:E; [|reflexivity].
    apply key_eqb_eq in E. contradiction.
Qed.

Lemma distinct_by_incl (l : list A) (a : A) :
  In a (distinct_by key_eqb key l) -> In a l.
Proof.
  induction l as [|b l IH]; simpl; [tauto|].
  intros [H|H]; [now left|].
  apply filter_In in H. right. now apply IH.
Qed.

(** Every key of the input has its representative. *)
Lemma distinct_by_covers (l : list A) (a : A) :
  In a l -> exists b, In b (distinct_by key_eqb key l) /\ key b = key a.
Proof.
  induction l as [|c l IH]; simpl; [tauto|].
  intros [->|H].
  - exists a. auto.
  - destruct (IH H) as [b [Hb Hk]].
    destruct (key_eqb (key b) (key c)) eqn:E.
    + exists c. apply key_eqb_eq in E. split; [now left | congruence].
    + exists b. split; [|exact Hk]. right.
      apply filter_In. split; [exact Hb | now rewrite E].
Qed.


(** Selecting on the key commutes with taking representatives. *)
Lemma distinct_by_filter (q : K -> bool) (l : list A) :
  filter (fun a => q (key a)) (distinct_by key_eqb key l) =
  distinct_by key_eqb key (filter (fun a => q (key a)) l).
Proof.
  induction l as [|a l IH]; simpl; [reflexivity|].
  destruct (q (key a)) eqn:Q; simpl.
  - f_equal. rewrite <- IH. apply filter_comm.
  - rewrite <- IH. rewrite filter_comm. apply filter_all.
    intros b Hb. apply filter_In in Hb. destruct Hb as [_ Hb].
    destruct (key_eqb (key b) (key a)) eqn:E; [|reflexivity].
    apply key_eqb_eq in E. rewrite E, Q in Hb. discriminate.
Qed.

Lemma group_by_in (l : list A) (a : A) (g : list A) :
  In (a, g) (group_by key_eqb key l) <->
  In a (distinct_by key_eqb key l) /\ g = same_key key_eqb key a l.
Proof.
  unfold group_by. rewrite in_map_iff. split.
  - intros [b [E Hb]]. inversion E; subst. auto.
  - intros [Ha ->]. exists a. auto.
Qed.

End GroupFacts.

(** ** Keys of the catalog *)

Lemma text_eqb_eq (a b : string) : text_eqb a b = true <-> a = b.
Proof. apply String.eqb_eq. Qed.

Lemma opt_text_eqb_eq (a b : option string) :
  opt_text_eqb a b = true <-> a = b.
Proof.
  destruct a as [x|], b as [y|]; simpl; try (split; congruence).
  rewrite text_eqb_eq. split; congruence.
Qed.

Lemma top_key_eqb_eq (k1 k2 : Z * string * option string) :
  top_key_eqb k1 k2 = true <-> k1 = k2.
Proof.
  destruct k1 as [[i1 n1] c1], k2 as [[i2 n2] c2]. unfold top_key_eqb.
  rewrite !andb_true_iff, Z.eqb_eq, text_eqb_eq, opt_text_eqb_eq.
  split; [intros [[-> ->] ->]; reflexivity | intros E; inversion E; auto].
Qed.

Lemma matrix_key_eqb_eq (k1 k2 : option string * string) :
  matrix_key_eqb k1 k2 = true <-> k1 = k2.
Proof.
  destruct k1 as [c1 n1], k2 as [c2 n2]. unfold matrix_key_eqb. simpl.
  rewrite andb_true_iff, text_eqb_eq, opt_text_eqb_eq.
  split; [intros [-> ->]; reflexivity | intros E; inversion E; auto].
Qed.

Lemma rank_key_eqb_eq (k1 k2 : option string * Z) :
  rank_key_eqb k1 k2 = true <-> k1 = k2.
Proof.
  destruct k1 as [c1 n1], k2 as [c2 n2]. unfold rank_key_eqb. simpl.
  rewrite andb_true_iff, Z.eqb_eq, opt_text_eqb_eq.
  split; [intros [-> ->]; reflexivity | intros E; inversion E; auto].
Qed.

(** ** The join grouped on a key of the customer *)

Lemma join_customer_rows (d : db) :
  join_customers_orders d = flat_map (customer_rows (orders d)) (customers d).
Proof. reflexivity. Qed.

Lemma in_join (d : db) (c : customer) (o : order) :
  In (c, o) (join_customers_orders d) <->
  In c (customers d) /\ In o (orders d) /\ o_customer_id o = c_customer_id c.
Proof.
  unfold join_customers_orders, orders_of. rewrite in_flat_map. split.
  - intros [c' [Hc H]]. apply in_map_iff in H. destruct H as [o' [E Ho]].
    inversion E; subst. apply filter_In in Ho. rewrite Z.eqb_eq in Ho. tauto.
  - intros [Hc [Ho E]]. exists c. split; [exact Hc|].
    apply in_map. apply filter_In. rewrite Z.eqb_eq. tauto.
Qed.

Section GroupedJoin.
Context {K : Type}.
Variable key_eqb : K -> K -> bool.
Variable ckey : customer -> K.
Hypothesis key_eqb_eq : forall x y, key_eqb x y = true <-> x = y.

Let rkey (r : customer * order) : K := ckey (fst r).

Lemma customer_rows_key (os : list order) (c : customer) r :
  In r (customer_rows os c) -> rkey r = ckey c.
Proof.
  unfold customer_rows. rewrite in_map_iff. intros [o [<- _]]. reflexivity.
Qed.

Lemma join_rows_key (os : list order) (cs : list customer) r :
  In r (flat_map (customer_rows os) cs) -> In (rkey r) (map ckey cs).
Proof.
  rewrite in_flat_map. intros [c [Hc Hr]].
  rewrite (customer_rows_key _ _ _ Hr). now apply in_map.
Qed.

Lemma distinct_by_block (l1 l2 : list (customer * order)) (k : K) :
  (forall r, In r l1 -> rkey r = k) ->
  (forall r, In r l2 -> rkey r <> k) ->
  distinct_by key_eqb rkey (l1 ++ l2) =
  match l1 with [] => [] | r :: _ => [r] end
    ++ distinct_by key_eqb rkey l2.
Proof.
  intros H1 H2. destruct l1 as [|r l1]; [reflexivity|]. simpl. f_equal.
  rewrite (distinct_by_filter key_eqb rkey key_eqb_eq
             (fun x => negb (key_eqb x (rkey r)))).
  rewrite filter_app, filter_none, filter_all; [reflexivity| |].
  - intros a Ha. apply negb_true_iff, (key_eqb_neq _ key_eqb_eq).
    rewrite (H1 r) by now left. now apply H2.
  - intros a Ha. apply negb_false_iff, key_eqb_eq.
    rewrite (H1 r) by now left. apply H1. now right.
Qed.

Lemma distinct_by_join (os : list order) (cs : list customer) :
  NoDup (map ckey cs) ->
  distinct_by key_eqb rkey (flat_map (customer_rows os) cs) =
  flat_map (fun c => match customer_rows os c with
                     | [] => []
                     | r :: _ => [r]
                     end) cs.
Proof.
  induction cs as [|c cs IH]; simpl; intros Hnd; [reflexivity|].
  inversion Hnd as [|? ? Hc Hcs]; subst.
  rewrite (distinct_by_block _ _ (ckey c)).
  - now rewrite IH.
  - apply customer_rows_key.
  - intros r Hr E. apply Hc. rewrite <- E. eapply join_rows_key, Hr.
Qed.

Lemma same_key_join (os : list order) (cs : list customer) c r :
  NoDup (map ckey cs) -> In c cs -> In r (customer_rows os c) ->
  same_key key_eqb rkey r (flat_map (customer_rows os) cs) =
  customer_rows os c.
Proof.
  intros Hnd Hc Hr. unfold same_key.
  rewrite (customer_rows_key _ _ _ Hr).
  induction cs as [|c' cs IH]; simpl; [contradiction|].
  inversion Hnd as [|? ? Hc' Hcs]; subst.
  rewrite filter_app. destruct Hc as [->|Hc].
  - rewrite filter_all, filter_none; [apply app_nil_r| |].
    + intros a Ha. apply (key_eqb_neq _ key_eqb_eq). intros E.
      apply Hc'. rewrite <- E. eapply join_rows_key, Ha.
    + intros a Ha. apply key_eqb_eq. eapply customer_rows_key, Ha.
  - rewrite filter_none, IH; auto.
    intros a Ha. apply (key_eqb_neq _ key_eqb_eq).
    rewrite (customer_rows_key _ _ _ Ha). intros E. apply Hc'.
    rewrite E. now apply in_map.
Qed.

Lemma group_by_join_within (os : list order) (cs cs' : list customer) :
  NoDup (map ckey cs) -> incl cs' cs ->
  map (fun r => (r, same_key key_eqb rkey r
                      (flat_map (customer_rows os) cs)))
      (flat_map (fun c => match customer_rows os c with
                          | [] => []
                          | r :: _ => [r]
                          end) cs') =
  flat_map (customer_group os) cs'.
Proof.
  intros Hnd. induction cs' as [|c cs' IH]; simpl; intros Hsub;
    [reflexivity|].
  rewrite map_app, IH by (eapply incl_cons_inv, Hsub).
  f_equal. unfold customer_group.
  destruct (customer_rows os c) as [|r rs] eqn:E; [reflexivity|]. simpl.
  rewrite (same_key_join os cs c r Hnd).
  - now rewrite E.
  - apply Hsub. now left.
  - rewrite E. now left.
Qed.

(** With a key that tells the customers apart, the groups of the join
    are the customers that own an order, in table order. *)
Lemma group_by_join (os : list order) (cs : list customer) :
  NoDup (map ckey cs) ->
  group_by key_eqb rkey (flat_map (customer_rows os) cs) =
  flat_map (customer_group os) cs.
Proof.
  intros Hnd. unfold group_by. rewrite (distinct_by_join os cs Hnd).
  apply group_by_join_within; [exact Hnd | apply incl_refl].
Qed.
End GroupedJoin.

(** ** Revenue of a customer *)

Lemma Qlt_bool_iff (x y : Q) : Qlt_bool x y = true <-> (x < y)%Q.
Proof.
  unfold Qlt_bool. rewrite negb_true_iff. split.
  - intros H. apply Qnot_le_lt. intros L. apply Qle_bool_iff in L. congruence.
  - intros H. destruct (Qle_bool y x) eqn:E; [|reflexivity].
    apply Qle_bool_iff in E. apply Qlt_not_le in H. contradiction.
Qed.

Lemma Qle_bool_total (x y : Q) : Qle_bool x y = false -> Qle_bool y x = true.
Proof.
  intros H. apply Qle_bool_iff. apply Qlt_le_weak, Qnot_le_lt.
  intros L. apply Qle_bool_iff in L. congruence.
Qed.

Lemma Qle_bool_trans (x y z : Q) :
  Qle_bool x y = true -> Qle_bool y z = true -> Qle_bool x z = true.
Proof. rewrite !Qle_bool_iff. apply Qle_trans. Qed.

Lemma real_add_zero (x : Q) : real_add x 0 = x.
Proof. reflexivity. Qed.









(** The conditional sum is the sum of the amounts of the PAID orders, in
    the same order: an order of another status adds zero, which changes
    no double. *)
Lemma paid_sum_from (os : list order) (acc : Q) :
  fold_left real_add (map case_paid os) acc =
  fold_left real_add (map o_amount (filter is_paid os)) acc.
Proof.
  revert acc. induction os as [|o os IH]; intros acc; [reflexivity|].
  cbn [map filter fold_left].
  assert (E : case_paid o = if is_paid o then o_amount o else 0%Q)
    by reflexivity.
  rewrite E. destruct (is_paid o).
  - cbn [map fold_left]. apply IH.
  - rewrite real_add_zero. apply IH.
Qed.

Lemma paid_sum_only_paid (os : list order) :
  paid_sum os = real_sum (map o_amount (filter is_paid os)).
Proof. apply paid_sum_from. Qed.

(** Without a PAID order the conditional sum is zero. *)
Lemma paid_sum_unpaid (os : list order) :
  (forall o, In o os -> is_paid o = false) -> paid_sum os = 0%Q.
Proof.
  intros H. rewrite paid_sum_only_paid, filter_none; [reflexivity|exact H].
Qed.

Lemma orders_of_nil_iff (d : db) (c : customer) :
  orders_of (c_customer_id c) (orders d) = [] <-> has_order d c = false.
Proof.
  unfold orders_of, has_order.
  induction (orders d) as [|o os IH]; simpl; [tauto|].
  destruct (o_customer_id o =? c_customer_id c); simpl;
    [split; discriminate | exact IH].
Qed.

Lemma no_order_no_revenue (d : db) (c : customer) :
  has_order d c = false -> customer_revenue d c = 0%Q.
Proof.
  intros H. apply orders_of_nil_iff in H. unfold customer_revenue.
  now rewrite H.
Qed.

Lemma map_snd_customer_rows (os : list order) (c : customer) :
  map snd (customer_rows os c) = orders_of (c_customer_id c) os.
Proof.
  unfold customer_rows. rewrite map_map. simpl. apply map_id.
Qed.

(** Aggregating the groups of the join, for an aggregate that reads the
    customer of the representative row and the orders of the group. *)
Lemma aggregate_customer_groups {R : Type}
  (agg : (customer * order) * list (customer * order) -> R)
  (row : customer -> R) (d : db) (cs : list customer) :
  (forall c r rs, customer_rows (orders d) c = r :: rs ->
                  agg (r, r :: rs) = row c) ->
  map agg (flat_map (customer_group (orders d)) cs) =
  map row (filter (has_order d) cs).
Proof.
  intros Hagg. induction cs as [|c cs IH]; simpl; [reflexivity|].
  rewrite map_app, IH. unfold customer_group at 1.
  destruct (customer_rows (orders d) c) as [|r rs] eqn:E.
  - assert (H : has_order d c = false).
    { apply orders_of_nil_iff. unfold customer_rows in E.
      now apply map_eq_nil in E. }
    now rewrite H.
  - assert (H : has_order d c = true).
    { destruct (has_order d c) eqn:F; [reflexivity|].
      apply orders_of_nil_iff in F. unfold customer_rows in E.
      rewrite F in E. discriminate. }
    rewrite H. simpl. f_equal. now apply Hagg.
Qed.

(** ** top_customers *)

Lemma nodup_top_key (cs : list customer) :
  NoDup (map c_customer_id cs) ->
  NoDup (map (fun c => (c_customer_id c, full_name c, c_city c)) cs).
Proof.
  induction cs as [|c cs IH]; simpl; intros H; inversion H; subst;
    constructor; auto.
  intros Hin. apply in_map_iff in Hin. destruct Hin as [c' [E Hc']].
  inversion E. apply H2. apply in_map_iff. exists c'. auto.
Qed.

Lemma top_grouped (d : db) :
  customers_pk d ->
  map top_aggregate
      (group_by top_key_eqb top_key (join_customers_orders d)) =
  map (revenue_row d) (filter (has_order d) (customers d)).
Proof.
  intros Hpk. rewrite join_customer_rows.
  change top_key with
    (fun r : customer * order =>
       (fun c => (c_customer_id c, full_name c, c_city c)) (fst r)).
  rewrite (group_by_join top_key_eqb _ top_key_eqb_eq)
    by now apply nodup_top_key.
  apply aggregate_customer_groups. intros c r rs E.
  assert (Hr : fst r = c).
  { assert (In r (customer_rows (orders d) c)) by (rewrite E; now left).
    unfold customer_rows in H. apply in_map_iff in H.
    destruct H as [o [<- _]]. reflexivity. }
  rewrite <- E. unfold top_aggregate, revenue_row, customer_revenue.
  cbn [fst snd]. now rewrite Hr, map_snd_customer_rows.
Qed.

Lemma filter_positive_has_order (d : db) (cs : list customer) :
  filter (fun r => Qlt_bool 0 (tc_revenue r))
         (map (revenue_row d) (filter (has_order d) cs)) =
  filter (fun r => Qlt_bool 0 (tc_revenue r)) (map (revenue_row d) cs).
Proof.
  induction cs as [|c cs IH]; simpl; [reflexivity|].
  destruct (has_order d c) eqn:H; simpl; rewrite IH; [reflexivity|].
  rewrite (no_order_no_revenue d c H). reflexivity.
Qed.

(** The query is the first ten of the candidates in descending order. *)
Lemma top_customers_eq (d : db) :
  customers_pk d ->
  top_customers d = firstn 10 (sort_by revenue_desc (revenue_candidates d)).
Proof.
  intros Hpk. unfold top_customers, revenue_candidates.
  now rewrite (top_grouped d Hpk), filter_positive_has_order.
Qed.

Lemma revenue_desc_total (a b : top_row) :
  revenue_desc a b = false -> revenue_desc b a = true.
Proof. apply Qle_bool_total. Qed.

Lemma revenue_desc_trans (a b c : top_row) :
  revenue_desc a b = true -> revenue_desc b c = true -> revenue_desc a c = true.
Proof. unfold revenue_desc. intros H1 H2. eapply Qle_bool_trans; eauto. Qed.

Lemma in_revenue_candidates (d : db) (r : top_row) :
  In r (revenue_candidates d) <->
  exists c, In c (customers d) /\ r = revenue_row d c /\
            (0 < customer_revenue d c)%Q.
Proof.
  unfold revenue_candidates. rewrite filter_In, in_map_iff, Qlt_bool_iff.
  split.
  - intros [[c [<- Hc]] Hpos]. exists c. auto.
  - intros [c [Hc [-> Hpos]]]. split; [exists c; auto | exact Hpos].
Qed.


Lemma top_customers_rows (d : db) (r : top_row) :
  customers_pk d -> In r (top_customers d) ->
  exists c, In c (customers d) /\ has_order d c = true /\
            r = revenue_row d c /\ (0 < tc_revenue r)%Q.
Proof.
  intros Hpk. rewrite (top_customers_eq d Hpk). intros H.
  assert (Hin : In r (sort_by revenue_desc (revenue_candidates d))).
  { rewrite <- (firstn_skipn 10). apply in_or_app. now left. }
  apply sort_by_in, in_revenue_candidates in Hin.
  destruct Hin as [c [Hc [-> Hpos]]]. exists c. repeat split; auto.
  destruct (has_order d c) eqn:E; [reflexivity|].
  rewrite (no_order_no_revenue d c E) in Hpos. now apply Qlt_irrefl in Hpos.
Qed.






(** ** The order of TEXT values *)

Lemma compare_as_OT (s1 s2 : string) :
  String_as_OT.compare s1 s2 = String.compare s1 s2.
Proof.
  revert s2. induction s1 as [|a s1 IH]; intros [|b s2]; reflexivity.
Qed.

Lemma compare_lt_trans (a b c : string) :
  String.compare a b = Lt -> String.compare b c = Lt ->
  String.compare a c = Lt.
Proof.
  rewrite <- !compare_as_OT.
  apply (@StrictOrder_Transitive _ _ String_as_OT.lt_strorder).
Qed.

Lemma text_leb_total (a b : string) :
  text_leb a b = false -> text_leb b a = true.
Proof.
  intros H. destruct (String.leb_total a b) as [E|E]; [|exact E].
  unfold text_leb in H. congruence.
Qed.

Lemma text_leb_trans (a b c : string) :
  text_leb a b = true -> text_leb b c = true -> text_leb a c = true.
Proof.
  unfold text_leb, String.leb.
  destruct (String.compare a b) eqn:Eab; try discriminate;
    destruct (String.compare b c) eqn:Ebc; try discriminate; intros _ _.
  - apply String.compare_eq_iff in Eab. subst. now rewrite Ebc.
  - apply String.compare_eq_iff in Eab. subst. now rewrite Ebc.
  - apply String.compare_eq_iff in Ebc. subst. now rewrite Eab.
  - now rewrite (compare_lt_trans a b c).
Qed.

Lemma text_leb_antisym (a b : string) :
  text_leb a b = true -> text_leb b a = true -> a = b.
Proof. apply String.leb_antisym. Qed.


Lemma opt_text_leb_total (a b : option string) :
  opt_text_leb a b = false -> opt_text_leb b a = true.
Proof.
  destruct a, b; simpl; try congruence. apply text_leb_total.
Qed.

Lemma opt_text_leb_trans (a b c : option string) :
  opt_text_leb a b = true -> opt_text_leb b c = true ->
  opt_text_leb a c = true.
Proof.
  destruct a, b, c; simpl; try congruence. apply text_leb_trans.
Qed.

Lemma opt_text_leb_antisym (a b : option string) :
  opt_text_leb a b = true -> opt_text_leb b a = true -> a = b.
Proof.
  destruct a, b; simpl; try congruence.
  intros H1 H2. f_equal. now apply text_leb_antisym.
Qed.



(** ** monthly_revenue *)



Section MonthFacts.
Variable other : string -> option string.






(** *** The text order of month keys is the order of the months *)




(** *** What [strftime_ym] returns on a date *)






End MonthFacts.



(** ** Customers without orders *)

Lemma join_without_customer (d : db) (c : customer) :
  has_order d c = false ->
  join_customers_orders (without_customer d c) = join_customers_orders d.
Proof.
  intros H. apply orders_of_nil_iff in H.
  unfold join_customers_orders, without_customer. simpl.
  induction (customers d) as [|c' cs IH]; simpl; [reflexivity|].
  destruct (c_customer_id c' =? c_customer_id c) eqn:E; simpl.
  - apply Z.eqb_eq in E. rewrite E, H. simpl. exact IH.
  - now rewrite IH.
Qed.

(** The two ways to run the join give the same rows. *)
Lemma in_join_orders (d : db) (c : customer) (o : order) :
  In (c, o) (join_orders_customers d) <->
  In c (customers d) /\ In o (orders d) /\
  o_customer_id o = c_customer_id c.
Proof.
  unfold join_orders_customers, customers_of.
  rewrite in_flat_map. split.
  - intros [o' [Ho H]]. apply in_map_iff in H.
    destruct H as [c' [E Hc]]. inversion E; subst.
    apply filter_In in Hc. destruct Hc as [Hc Hid].
    apply Z.eqb_eq in Hid. auto.
  - intros (Hc & Ho & E). exists o. split; [exact Ho|].
    apply in_map_iff. exists c. split; [reflexivity|].
    apply filter_In. split; [exact Hc | now apply Z.eqb_eq].
Qed.

Lemma join_orders_without_customer (d : db) (c : customer) :
  has_order d c = false ->
  join_orders_customers (without_customer d c) = join_orders_customers d.
Proof.
  intros H.
  assert (Hall : forall o, In o (orders d) ->
                           o_customer_id o <> c_customer_id c).
  { intros o Ho E. unfold has_order in H.
    assert (T : existsb (fun o => o_customer_id o =? c_customer_id c)
                        (orders d) = true).
    { apply existsb_exists. exists o. split; [exact Ho|].
      now apply Z.eqb_eq. }
    congruence. }
  unfold join_orders_customers, without_customer. cbn [customers orders].
  induction (orders d) as [|o os IH]; [reflexivity|].
  cbn [flat_map]. rewrite IH by (intros o' Ho'; apply Hall; now right).
  f_equal. f_equal. unfold customers_of. rewrite filter_comm.
  apply filter_all. intros c' Hc'. apply filter_In in Hc'.
  destruct Hc' as [_ E]. apply Z.eqb_eq in E.
  apply negb_true_iff, Z.eqb_neq. rewrite E. apply Hall. now left.
Qed.

Lemma not_in_join (d : db) (c : customer) (o : order) :
  has_order d c = false -> ~ In (c, o) (join_customers_orders d).
Proof.
  intros H Hin. apply in_join in Hin. destruct Hin as (_ & Ho & E).
  unfold has_order in H.
  assert (T : existsb (fun o => o_customer_id o =? c_customer_id c)
                      (orders d) = true).
  { apply existsb_exists. exists o. split; [exact Ho | now apply Z.eqb_eq]. }
  congruence.
Qed.

Lemma top_customers_ids (d : db) (r : top_row) :
  In r (top_customers d) ->
  exists c o, In (c, o) (join_customers_orders d) /\
              tc_customer_id r = c_customer_id c.
Proof.
  unfold top_customers. intros H.
  assert (Hin : In r (sort_by revenue_desc
                 (filter (fun r => Qlt_bool 0 (tc_revenue r))
                    (map top_aggregate
                       (group_by top_key_eqb top_key
                          (join_customers_orders d)))))).
  { rewrite <- (firstn_skipn 10). apply in_or_app. now left. }
  apply sort_by_in, filter_In in Hin. destruct Hin as [Hin _].
  apply in_map_iff in Hin. destruct Hin as [[[c o] g] [<- Hg]].
  apply group_by_in in Hg. destruct Hg as [Hg _].
  apply distinct_by_incl in Hg. exists c, o. auto.
Qed.

(** C4. A customer that owns no order row contributes no row to the join
    of customers and orders, so [top_customers], [category_city_matrix]
    and [window_rank_in_city] return what they return on the database
    without that customer, and no row of [top_customers] carries the
    customer's customer_id. *)
Theorem customer_without_orders_absent (d : db) (c : customer) :
  has_order d c = false ->
  (forall o, ~ In (c, o) (join_customers_orders d)) /\
  top_customers d = top_customers (without_customer d c) /\
  category_city_matrix d = category_city_matrix (without_customer d c) /\
  window_rank_in_city d = window_rank_in_city (without_customer d c) /\
  (forall r, In r (top_customers d) -> tc_customer_id r <> c_customer_id c).
Proof.
  intros H. split; [intros o; now apply not_in_join|].
  unfold top_customers, category_city_matrix, window_rank_in_city,
    window_subquery.
  rewrite (join_without_customer d c H), (join_orders_without_customer d c H).
  repeat split.
  intros r Hr E. apply top_customers_ids in Hr.
  destruct Hr as (c' & o & Hin & Ec). apply in_join in Hin.
  destruct Hin as (_ & Ho & Eo). unfold has_order in H.
  assert (T : existsb (fun o => o_customer_id o =? c_customer_id c)
                      (orders d) = true).
  { apply existsb_exists. exists o. split; [exact Ho|].
    apply Z.eqb_eq. congruence. }
  congruence.
Qed.

Lemma customer_without_orders_absent_witness :
  has_order idle_customer_db
    (mkCustomer 3 "Carla" "Silva" "user2@example.com" (Some "Santiago")
                "2023-01-03") = false /\
  forall r, In r (top_customers idle_customer_db) -> tc_customer_id r <> 3.
Proof.
  split; [reflexivity|].
  exact (proj2 (proj2 (proj2 (proj2
           (customer_without_orders_absent idle_customer_db
              (mkCustomer 3 "Carla" "Silva" "user2@example.com"
                          (Some "Santiago") "2023-01-03")
              eq_refl))))).
Defined.

(** ** category_city_matrix *)

Lemma matrix_in (d : db) (r : matrix_row) :
  In r (category_city_matrix d) <->
  (exists c o, In (c, o) (join_customers_orders d) /\
               c_city c = mx_city r /\ o_category o = mx_category r) /\
  mx_revenue r = cell_revenue d (mx_city r) (mx_category r).
Proof.
  assert (J : forall c o, In (c, o) (join_customers_orders d) <->
                          In (c, o) (join_orders_customers d))
    by (intros c o; now rewrite in_join, in_join_orders).
  unfold category_city_matrix. rewrite sort_by_in, in_map_iff. split.
  - intros [[[c o] g] [<- Hg]]. apply group_by_in in Hg.
    destruct Hg as [Hg ->]. split; [|reflexivity].
    exists c, o. split; [|split; reflexivity].
    apply J. eapply distinct_by_incl, Hg.
  - intros [(c & o & Hin & Hc & Ho) Hrev]. apply J in Hin.
    destruct (distinct_by_covers matrix_key_eqb matrix_key matrix_key_eqb_eq
                _ _ Hin) as [[c' o'] [Hb Hk]].
    exists ((c', o'), same_key matrix_key_eqb matrix_key (c', o')
                        (join_orders_customers d)).
    split; [|apply group_by_in; auto].
    unfold matrix_key in Hk. simpl in Hk. inversion Hk as [[Ec Eo]].
    destruct r as [city cat rev]. simpl in *. subst.
    unfold matrix_aggregate, cell_revenue, matrix_cell, same_key. simpl.
    unfold matrix_key at 2. simpl. now rewrite Ec, Eo.
Qed.


Section CityThen.
Context {A : Type}.
Variable city : A -> option string.
Variable leb2 : A -> A -> bool.
Hypothesis leb2_total : forall a b, leb2 a b = false -> leb2 b a = true.
Hypothesis leb2_trans :
  forall a b c, leb2 a b = true -> leb2 b c = true -> leb2 a c = true.

Lemma opt_text_eqb_refl (x : option string) : opt_text_eqb x x = true.
Proof. now apply opt_text_eqb_eq. Qed.

Lemma city_then_total (a b : A) :
  city_then city leb2 a b = false -> city_then city leb2 b a = true.
Proof.
  unfold city_then.
  destruct (opt_text_eqb (city a) (city b)) eqn:E.
  - apply opt_text_eqb_eq in E. rewrite E, opt_text_eqb_refl.
    apply leb2_total.
  - destruct (opt_text_eqb (city b) (city a)) eqn:E'.
    + apply opt_text_eqb_eq in E'. rewrite E', opt_text_eqb_refl in E.
      discriminate.
    + apply opt_text_leb_total.
Qed.

Lemma city_then_trans (a b c : A) :
  city_then city leb2 a b = true -> city_then city leb2 b c = true -> city_then city leb2 a c = true.
Proof.
  unfold city_then.
  destruct (opt_text_eqb (city a) (city b)) eqn:Eab.
  - apply opt_text_eqb_eq in Eab. rewrite Eab.
    destruct (opt_text_eqb (city b) (city c)); auto. apply leb2_trans.
  - destruct (opt_text_eqb (city b) (city c)) eqn:Ebc.
    + apply opt_text_eqb_eq in Ebc. rewrite <- Ebc, Eab. auto.
    + intros H1 H2.
      destruct (opt_text_eqb (city a) (city c)) eqn:Eac.
      * apply opt_text_eqb_eq in Eac. rewrite <- Eac in H2.
        rewrite (opt_text_leb_antisym _ _ H1 H2), opt_text_eqb_refl in Eab.
        discriminate.
      * eapply opt_text_leb_trans; eauto.
Qed.

End CityThen.





Lemma nodup_map_inj {A B} (f : A -> B) (l : list A) (a b : A) :
  NoDup (map f l) -> In a l -> In b l -> f a = f b -> a = b.
Proof.
  induction l as [|x l IH]; simpl; intros Hnd Ha Hb E; [contradiction|].
  inversion Hnd as [|? ? Hx Hl]; subst.
  destruct Ha as [->|Ha], Hb as [->|Hb]; auto.
  - exfalso. apply Hx. rewrite E. now apply in_map.
  - exfalso. apply Hx. rewrite <- E. now apply in_map.
Qed.







(** ** Selection and ORDER BY commute *)

Section SortFilter.
Context {A : Type}.
Variable leb : A -> A -> bool.
Hypothesis leb_total : forall a b, leb a b = false -> leb b a = true.
Hypothesis leb_trans :
  forall a b c, leb a b = true -> leb b c = true -> leb a c = true.
Variable p : A -> bool.

Lemma filter_insert_by (a : A) (l : list A) :
  ordered_by leb l ->
  filter p (insert_by leb a l) =
  if p a then insert_by leb a (filter p l) else filter p l.
Proof.
  unfold ordered_by. induction 1 as [|b l Hs IH Hb]; simpl.
  - destruct (p a); reflexivity.
  - destruct (leb a b) eqn:E; simpl.
    + destruct (p a) eqn:Pa; [|reflexivity].
      destruct (p b) eqn:Pb; simpl; [now rewrite E|].
      symmetry. apply insert_by_head. apply Forall_forall.
      intros x Hx. apply filter_In in Hx. destruct Hx as [Hx _].
      rewrite Forall_forall in Hb. eauto.
    + rewrite IH. destruct (p a) eqn:Pa, (p b) eqn:Pb; simpl;
        rewrite ?E; reflexivity.
Qed.

Lemma sort_by_filter (l : list A) :
  filter p (sort_by leb l) = sort_by leb (filter p l).
Proof.
  induction l as [|a l IH]; simpl; [reflexivity|].
  rewrite filter_insert_by by now apply sort_by_ordered.
  destruct (p a); simpl; now rewrite IH.
Qed.
End SortFilter.

(** ** ROW_NUMBER *)

Lemma number_from_fst {A} (n : Z) (l : list A) :
  map fst (number_from n l) = l.
Proof.
  revert n. induction l as [|a l IH]; intros n; simpl; [reflexivity|].
  now rewrite IH.
Qed.

Lemma number_from_length {A} (n : Z) (l : list A) :
  List.length (number_from n l) = List.length l.
Proof. rewrite <- (number_from_fst n l) at 2. now rewrite length_map. Qed.


Lemma number_from_in {A} (n : Z) (l : list A) (a : A) (k : Z) :
  In (a, k) (number_from n l) <->
  exists i, nth_error l i = Some a /\ k = n + Z.of_nat i.
Proof.
  revert n. induction l as [|b l IH]; intros n; simpl.
  - split; [contradiction | intros [[|i] [H _]]; discriminate].
  - rewrite IH. split.
    + intros [E|[i [Hi ->]]].
      * inversion E; subst. exists 0%nat. split; [reflexivity | lia].
      * exists (S i). split; [exact Hi | lia].
    + intros [[|i] [Hi ->]]; simpl in Hi.
      * left. inversion Hi. f_equal. lia.
      * right. exists i. split; [exact Hi | lia].
Qed.

(** Keeping the numbers up to [m] keeps the first rows. *)
Lemma number_from_upto {A} (n m : Z) (l : list A) :
  filter (fun q => snd q <=? m) (number_from n l) =
  number_from n (firstn (Z.to_nat (m - n + 1)) l).
Proof.
  revert n. induction l as [|a l IH]; intros n; simpl.
  - now rewrite firstn_nil.
  - destruct (n <=? m) eqn:E.
    + apply Z.leb_le in E.
      replace (Z.to_nat (m - n + 1)) with (S (Z.to_nat (m - (n + 1) + 1)))
        by lia.
      simpl. now rewrite IH.
    + apply Z.leb_gt in E.
      replace (Z.to_nat (m - n + 1)) with 0%nat by lia. simpl.
      rewrite IH. replace (Z.to_nat (m - (n + 1) + 1)) with 0%nat by lia.
      reflexivity.
Qed.

(** ** Groups of a list with a single key *)

Section SingleKey.
Context {A K : Type}.
Variable key_eqb : K -> K -> bool.
Variable key : A -> K.
Hypothesis key_eqb_eq : forall x y, key_eqb x y = true <-> x = y.

Lemma distinct_by_single (k : K) (l : list A) :
  (forall a, In a l -> key a = k) ->
  distinct_by key_eqb key l = match l with [] => [] | a :: _ => [a] end.
Proof.
  destruct l as [|a l]; simpl; intros H; [reflexivity|]. f_equal.
  apply filter_none. intros b Hb. apply distinct_by_incl in Hb.
  apply negb_false_iff, key_eqb_eq.
  rewrite (H a), (H b); auto.
Qed.

(** The representatives with the key [k]: the first row of that key. *)
Lemma distinct_by_key (k : K) (l : list A) :
  filter (fun a => key_eqb (key a) k) (distinct_by key_eqb key l) =
  match filter (fun a => key_eqb (key a) k) l with
  | [] => []
  | a :: _ => [a]
  end.
Proof.
  rewrite (distinct_by_filter key_eqb key key_eqb_eq
             (fun x => key_eqb x k)).
  apply (distinct_by_single k).
  intros a Ha. apply filter_In in Ha. now apply key_eqb_eq.
Qed.
End SingleKey.

Lemma flat_map_filter {A B} (p : A -> bool) (g : A -> list B) (l : list A) :
  flat_map (fun a => if p a then g a else []) l = flat_map g (filter p l).
Proof.
  induction l as [|a l IH]; simpl; [reflexivity|].
  destruct (p a); simpl; now rewrite IH.
Qed.

Lemma filter_flat_map {A B} (p : B -> bool) (g : A -> list B) (l : list A) :
  filter p (flat_map g l) = flat_map (fun a => filter p (g a)) l.
Proof.
  induction l as [|a l IH]; simpl; [reflexivity|].
  now rewrite filter_app, IH.
Qed.

(** ** window_rank_in_city *)

Lemma nodup_rank_key (cs : list customer) :
  NoDup (map c_customer_id cs) ->
  NoDup (map (fun c => (c_city c, c_customer_id c)) cs).
Proof.
  induction cs as [|c cs IH]; simpl; intros H; inversion H; subst;
    constructor; auto.
  intros Hin. apply in_map_iff in Hin. destruct Hin as [c' [E Hc']].
  inversion E. apply H2. apply in_map_iff. exists c'. auto.
Qed.

Lemma window_grouped (d : db) :
  customers_pk d ->
  map rank_aggregate
      (group_by rank_key_eqb rank_key (join_customers_orders d)) =
  city_rows d.
Proof.
  intros Hpk. rewrite join_customer_rows.
  change rank_key with
    (fun r : customer * order =>
       (fun c => (c_city c, c_customer_id c)) (fst r)).
  rewrite (group_by_join rank_key_eqb _ rank_key_eqb_eq)
    by now apply nodup_rank_key.
  apply aggregate_customer_groups. intros c r rs E.
  assert (Hr : fst r = c).
  { assert (In r (customer_rows (orders d) c)) by (rewrite E; now left).
    unfold customer_rows in H. apply in_map_iff in H.
    destruct H as [o [<- _]]. reflexivity. }
  rewrite <- E. unfold rank_aggregate, city_row, customer_revenue.
  cbn [fst snd]. now rewrite Hr, map_snd_customer_rows.
Qed.

Lemma cr_revenue_desc_total (a b : city_revenue) :
  cr_revenue_desc a b = false -> cr_revenue_desc b a = true.
Proof. apply Qle_bool_total. Qed.

Lemma cr_revenue_desc_trans (a b c : city_revenue) :
  cr_revenue_desc a b = true -> cr_revenue_desc b c = true ->
  cr_revenue_desc a c = true.
Proof. unfold cr_revenue_desc. intros H1 H2. eapply Qle_bool_trans; eauto. Qed.

Lemma city_rn_asc_total (a b : rank_row) :
  city_rn_asc a b = false -> city_rn_asc b a = true.
Proof.
  apply (city_then_total rk_city (fun a b => rk_rn a <=? rk_rn b)).
  intros x y H. apply Z.leb_gt in H. apply Z.leb_le. lia.
Qed.

Lemma city_rn_asc_trans (a b c : rank_row) :
  city_rn_asc a b = true -> city_rn_asc b c = true -> city_rn_asc a c = true.
Proof.
  apply (city_then_trans rk_city (fun a b => rk_rn a <=? rk_rn b)).
  intros x y z H1 H2. apply Z.leb_le in H1, H2. apply Z.leb_le. lia.
Qed.

(** The rows the window function gives for one city: the rows of the city
    in descending order of revenue, numbered from 1. *)
Lemma row_number_slice (rows : list city_revenue) (k : option string) :
  filter (fun r => opt_text_eqb (rk_city r) k) (row_number_in_city rows) =
  map ranked
      (number_from 1
         (sort_by cr_revenue_desc
            (filter (fun a => opt_text_eqb (cr_city a) k) rows))).
Proof.
  unfold row_number_in_city, group_by.
  rewrite filter_flat_map, flat_map_concat_map, map_map,
    <- flat_map_concat_map.
  cbn [snd].
  rewrite (flat_map_ext _
    (fun a => if opt_text_eqb (cr_city a) k
              then map ranked
                     (number_from 1
                        (sort_by cr_revenue_desc
                           (filter (fun b => opt_text_eqb (cr_city b) k)
                                   rows)))
              else [])).
  - rewrite flat_map_filter.
    rewrite (distinct_by_key opt_text_eqb cr_city opt_text_eqb_eq).
    destruct (filter (fun a => opt_text_eqb (cr_city a) k) rows);
      simpl; [reflexivity | apply app_nil_r].
  - intros a.
    assert (Hcity : forall r,
              In r (map ranked (number_from 1
                      (sort_by cr_revenue_desc
                         (same_key opt_text_eqb cr_city a rows)))) ->
              rk_city r = cr_city a).
    { intros r Hr. apply in_map_iff in Hr. destruct Hr as [[b n] [<- Hb]].
      apply (in_map fst) in Hb. rewrite number_from_fst in Hb.
      apply sort_by_in in Hb. unfold same_key in Hb.
      apply filter_In in Hb. simpl. now apply opt_text_eqb_eq. }
    destruct (opt_text_eqb (cr_city a) k) eqn:E.
    + apply opt_text_eqb_eq in E. rewrite filter_all.
      * unfold same_key. now rewrite E.
      * intros r Hr. apply opt_text_eqb_eq. rewrite <- E. now apply Hcity.
    + apply filter_none. intros r Hr. rewrite (Hcity r Hr). exact E.
Qed.

Lemma filter_map_comm {A B} (p : B -> bool) (f : A -> B) (l : list A) :
  filter p (map f l) = map f (filter (fun a => p (f a)) l).
Proof.
  induction l as [|a l IH]; simpl; [reflexivity|].
  destruct (p (f a)); simpl; now rewrite IH.
Qed.

(** Rows of one city numbered upwards are in the order of the result. *)
Lemma ranked_ordered (k : option string) (n : Z) (l : list city_revenue) :
  (forall a, In a l -> cr_city a = k) ->
  ordered_by city_rn_asc (map ranked (number_from n l)).
Proof.
  unfold ordered_by. revert n.
  induction l as [|a l IH]; intros n H; simpl; constructor.
  - apply IH. intros b Hb. apply H. now right.
  - apply Forall_forall. intros r Hr.
    apply in_map_iff in Hr. destruct Hr as [[b m] [<- Hb]].
    assert (Hm : n + 1 <= m).
    { apply number_from_in in Hb. destruct Hb as [i [_ ->]]. lia. }
    apply (in_map fst) in Hb. rewrite number_from_fst in Hb. simpl in Hb.
    unfold city_rn_asc, ranked. simpl.
    rewrite (H a), (H b), opt_text_eqb_refl by (simpl; auto).
    apply Z.leb_le. lia.
Qed.

(** The rows of [window_rank_in_city] for one city. *)
Lemma window_slice (d : db) (k : option string) :
  customers_pk d ->
  filter (fun r => opt_text_eqb (rk_city r) k) (window_rank_in_city d) =
  map ranked
      (number_from 1
         (firstn 3 (sort_by cr_revenue_desc (city_customers d k)))).
Proof.
  intros Hpk. unfold window_rank_in_city, window_subquery.
  rewrite (window_grouped d Hpk).
  rewrite (sort_by_filter city_rn_asc city_rn_asc_total city_rn_asc_trans).
  rewrite filter_comm, row_number_slice.
  fold (city_customers d k).
  rewrite filter_map_comm.
  change (fun a : city_revenue * Z => rk_rn (ranked a) <=? 3)
    with (fun a : city_revenue * Z => snd a <=? 3).
  rewrite number_from_upto.
  change (Z.to_nat (3 - 1 + 1)) with 3%nat.
  apply sort_by_ordered_id. apply (ranked_ordered k).
  intros a Ha.
  assert (Hin : In a (sort_by cr_revenue_desc (city_customers d k))).
  { rewrite <- (firstn_skipn 3). apply in_or_app. now left. }
  apply sort_by_in in Hin. unfold city_customers in Hin.
  apply filter_In in Hin. now apply opt_text_eqb_eq.
Qed.


Lemma Permutation_filter' {A} (p : A -> bool) (l1 l2 : list A) :
  Permutation l1 l2 -> Permutation (filter p l1) (filter p l2).
Proof.
  induction 1 as [|a l1 l2 H IH|a b l|l1 l2 l3 H1 IH1 H2 IH2]; simpl.
  - constructor.
  - destruct (p a); auto.
  - destruct (p a), (p b); auto using Permutation_refl. apply perm_swap.
  - eapply perm_trans; eauto.
Qed.












(** ** Ranking by identity *)

Lemma two_positions {A} (a b : A) (rest l : list A) :
  Permutation (a :: b :: rest) l ->
  exists i j, i <> j /\ nth_error l i = Some a /\ nth_error l j = Some b.
Proof.
  intros Hp.
  assert (Ha : In a l) by (eapply Permutation_in; [exact Hp | now left]).
  apply in_split in Ha. destruct Ha as (l1 & l2 & ->).
  apply Permutation_cons_app_inv in Hp.
  assert (Hb : In b (l1 ++ l2))
    by (eapply Permutation_in; [exact Hp | now left]).
  exists (List.length l1).
  apply in_app_or in Hb. destruct Hb as [Hb|Hb].
  - apply In_nth_error in Hb. destruct Hb as [j Hj].
    assert (Hlt : (j < List.length l1)%nat)
      by (apply nth_error_Some; congruence).
    exists j. split; [lia|]. split.
    + rewrite nth_error_app2, Nat.sub_diag by lia. reflexivity.
    + now rewrite nth_error_app1.
  - apply In_nth_error in Hb. destruct Hb as [j Hj].
    exists (List.length l1 + S j)%nat. split; [lia|]. split.
    + rewrite nth_error_app2, Nat.sub_diag by lia. reflexivity.
    + rewrite nth_error_app2 by lia.
      replace (List.length l1 + S j - List.length l1)%nat with (S j) by lia.
      exact Hj.
Qed.

Lemma two_members {A} (a b : A) (l : list A) :
  In a l -> In b l -> a <> b -> exists rest, Permutation l (a :: b :: rest).
Proof.
  intros Ha Hb Hne.
  apply in_split in Ha. destruct Ha as (l1 & l2 & ->).
  assert (Hb' : In b (l1 ++ l2)).
  { apply in_app_or in Hb. apply in_or_app.
    destruct Hb as [Hb|[Hb|Hb]]; auto. congruence. }
  apply in_split in Hb'. destruct Hb' as (m1 & m2 & E).
  exists (m1 ++ m2).
  eapply perm_trans; [apply Permutation_sym, Permutation_middle|].
  apply perm_skip. rewrite E. apply Permutation_sym, Permutation_middle.
Qed.

Lemma window_subquery_rows (d : db) :
  customers_pk d -> window_subquery d = row_number_in_city (city_rows d).
Proof.
  intros Hpk. unfold window_subquery. now rewrite (window_grouped d Hpk).
Qed.

Lemma subquery_in_result (d : db) (r : rank_row) :
  In r (window_subquery d) -> rk_rn r <= 3 -> In r (window_rank_in_city d).
Proof.
  intros Hr Hrn. unfold window_rank_in_city.
  apply sort_by_in, filter_In. split; [exact Hr | now apply Z.leb_le].
Qed.

(** C10. Two customers of the same city with the same first and last
    name, each owning an order, are two rows of the ranked subquery of
    [window_rank_in_city]: each row carries the revenue of one of them and
    a rank of its own, under the same city and the same name; the
    subquery has one row per customer of the city that owns an order; and
    each of the two rows is in the result when its rank is at most 3. *)
Theorem window_ranks_by_identity (d : db) (c1 c2 : customer) :
  customers_pk d ->
  In c1 (customers d) -> In c2 (customers d) ->
  c_customer_id c1 <> c_customer_id c2 ->
  c_city c1 = c_city c2 ->
  c_first_name c1 = c_first_name c2 -> c_last_name c1 = c_last_name c2 ->
  has_order d c1 = true -> has_order d c2 = true ->
  List.length (filter (fun r => opt_text_eqb (rk_city r) (c_city c1))
                      (window_subquery d)) =
  List.length (filter (fun c => opt_text_eqb (c_city c) (c_city c1))
                      (filter (has_order d) (customers d))) /\
  exists rn1 rn2,
    rn1 <> rn2 /\
    In (mkRankRow (c_city c1) (full_name c1) (customer_revenue d c1) rn1)
       (window_subquery d) /\
    In (mkRankRow (c_city c1) (full_name c1) (customer_revenue d c2) rn2)
       (window_subquery d) /\
    (rn1 <= 3 ->
     In (mkRankRow (c_city c1) (full_name c1) (customer_revenue d c1) rn1)
        (window_rank_in_city d)) /\
    (rn2 <= 3 ->
     In (mkRankRow (c_city c1) (full_name c1) (customer_revenue d c2) rn2)
        (window_rank_in_city d)).
Proof.
  intros Hpk H1 H2 Hid Hcity Hfirst Hlast O1 O2.
  assert (Hname : full_name c2 = full_name c1)
    by (unfold full_name; now rewrite Hfirst, Hlast).
  pose proof (row_number_slice (city_rows d) (c_city c1)) as Hslice.
  rewrite <- (window_subquery_rows d Hpk) in Hslice.
  fold (city_customers d (c_city c1)) in Hslice.
  split.
  { rewrite Hslice, length_map, number_from_length, sort_by_length.
    unfold city_customers, city_rows. rewrite filter_map_comm, length_map.
    reflexivity. }
  assert (Hne : c1 <> c2) by congruence.
  destruct (two_members c1 c2 (customers d) H1 H2 Hne) as [rest Hperm].
  assert (Hrows : exists rows,
            Permutation (city_row d c1 :: city_row d c2 :: rows)
                        (sort_by cr_revenue_desc
                           (city_customers d (c_city c1)))).
  { eexists. apply Permutation_sym.
    eapply perm_trans; [apply sort_by_perm|].
    unfold city_customers, city_rows.
    eapply perm_trans.
    - apply Permutation_filter', Permutation_map, Permutation_filter', Hperm.
    - simpl. rewrite O1, O2. simpl.
      rewrite <- Hcity, opt_text_eqb_refl. apply Permutation_refl. }
  destruct Hrows as [rows Hrows].
  destruct (two_positions _ _ _ _ Hrows) as (i & j & Hij & Hi & Hj).
  assert (Hin : forall c n,
            c_city c = c_city c1 -> full_name c = full_name c1 ->
            nth_error (sort_by cr_revenue_desc
                         (city_customers d (c_city c1))) n
            = Some (city_row d c) ->
            In (mkRankRow (c_city c1) (full_name c1) (customer_revenue d c)
                          (1 + Z.of_nat n))
               (window_subquery d)).
  { intros c n Ec En Hn.
    assert (Hs : In (ranked (city_row d c, 1 + Z.of_nat n))
                    (filter (fun r => opt_text_eqb (rk_city r) (c_city c1))
                            (window_subquery d))).
    { rewrite Hslice. apply in_map. apply number_from_in. exists n. auto. }
    apply filter_In in Hs. destruct Hs as [Hs _].
    unfold ranked, city_row in Hs. simpl in Hs. now rewrite Ec, En in Hs. }
  exists (1 + Z.of_nat i), (1 + Z.of_nat j).
  assert (In1 := Hin c1 i eq_refl eq_refl Hi).
  assert (In2 := Hin c2 j (eq_sym Hcity) Hname Hj).
  split; [lia|]. split; [exact In1|]. split; [exact In2|].
  split; intros Hle; now apply subquery_in_result.
Qed.

Lemma window_ranks_by_identity_witness :
  customers_pk namesakes_db /\
  exists rn1 rn2,
    rn1 <> rn2 /\
    In (mkRankRow (Some "Santiago") "Ana Soto" 10 rn1)
       (window_subquery namesakes_db) /\
    In (mkRankRow (Some "Santiago") "Ana Soto" 25 rn2)
       (window_subquery namesakes_db).
Proof.
  assert (Hpk : customers_pk namesakes_db).
  { unfold customers_pk. simpl. repeat constructor; simpl; intuition lia. }
  split; [exact Hpk|].
  destruct (window_ranks_by_identity namesakes_db
              (mkCustomer 1 "Ana" "Soto" "user0@example.com"
                          (Some "Santiago") "2023-01-01")
              (mkCustomer 2 "Ana" "Soto" "user1@example.com"
                          (Some "Santiago") "2023-01-02")
              Hpk (or_introl eq_refl) (or_intror (or_introl eq_refl))
              ltac:(simpl; lia) eq_refl eq_refl eq_refl eq_refl eq_refl)
    as (_ & rn1 & rn2 & Hne & In1 & In2 & _).
  exists rn1, rn2. auto.
Defined.

(** ** The write path *)

Lemma rollback_idle (conn : connection) : idle conn -> rollback conn = conn.
Proof.
  destruct conn as [c w]. unfold idle, rollback. simpl. now intros ->.
Qed.

Section StatementFacts.
Context {V : Type}.
Variable insert : db -> V -> integrity_error + db.

Lemma execute_committed (conn : connection) (v : V) :
  committed (fst (execute insert conn v)) = committed conn.
Proof. unfold execute. destruct (insert (current conn) v); reflexivity. Qed.

Lemma executemany_committed (conn : connection) (rows : list V) :
  committed (fst (executemany insert conn rows)) = committed conn.
Proof.
  revert conn. induction rows as [|v rows IH]; intros conn; simpl;
    [reflexivity|].
  pose proof (execute_committed conn v) as H.
  destruct (execute insert conn v) as [conn' [e|]]; simpl in *;
    [exact H | now rewrite IH].
Qed.

(** A tuple that the statement refuses whenever the tables satisfy
    [inv], an invariant of the statement, makes the batch raise. *)
Lemma executemany_raises (inv : db -> Prop) (conn : connection)
  (rows : list V) (v : V) :
  (forall d w d', inv d -> insert d w = inr d' -> inv d') ->
  (forall d, inv d -> exists e, insert d v = inl e) ->
  inv (current conn) -> In v rows ->
  exists conn' e, executemany insert conn rows = (conn', Some e).
Proof.
  intros Hstep Hrej. revert conn.
  induction rows as [|w rows IH]; intros conn Hinv Hin; simpl;
    [contradiction|].
  unfold execute at 1. destruct (insert (current conn) w) as [e|d'] eqn:E.
  - eauto.
  - destruct Hin as [->|Hin].
    + destruct (Hrej _ Hinv) as [e He]. congruence.
    + apply IH; [|exact Hin]. simpl. eapply Hstep; eauto.
Qed.

(** A raising body inside [with conn:] leaves the committed content and
    closes the transaction. *)
Lemma with_conn_raises (body : connection -> outcome) (conn conn' : connection)
  (e : integrity_error) :
  body conn = (conn', Some e) -> committed conn' = committed conn ->
  with_conn body conn = (rollback conn, Some e).
Proof.
  intros H Hc. unfold with_conn. rewrite H. unfold rollback.
  now rewrite Hc.
Qed.
End StatementFacts.

Lemma insert_order_customers (d d' : db) (v : order_values) :
  insert_order d v = inr d' -> customers d' = customers d.
Proof.
  unfold insert_order.
  destruct (v_customer_id v); [|discriminate].
  destruct (v_order_date v); [|discriminate].
  destruct (v_category v); [|discriminate].
  destruct (v_amount v); [|discriminate].
  destruct (v_status v); [|discriminate].
  destruct (negb (status_check _)); [discriminate|].
  destruct (negb (customer_exists _ _)); [discriminate|].
  intros H. inversion H. reflexivity.
Qed.

Lemma insert_order_orphan (d : db) (v : order_values) (cid : Z) :
  v_customer_id v = Some cid -> customer_exists d cid = false ->
  exists e, insert_order d v = inl e.
Proof.
  intros Hv Hc. unfold insert_order. rewrite Hv.
  destruct (v_order_date v); [|eauto].
  destruct (v_category v); [|eauto].
  destruct (v_amount v); [|eauto].
  destruct (v_status v); [|eauto].
  destruct (negb (status_check _)); [eauto|].
  rewrite Hc. simpl. eauto.
Qed.

Lemma insert_order_bad_status (d : db) (v : order_values) (s : string) :
  v_status v = Some s -> status_check s = false ->
  exists e, insert_order d v = inl e.
Proof.
  intros Hv Hs. unfold insert_order. rewrite Hv.
  destruct (v_customer_id v); [|eauto].
  destruct (v_order_date v); [|eauto].
  destruct (v_category v); [|eauto].
  destruct (v_amount v); [|eauto].
  rewrite Hs. simpl. eauto.
Qed.

(** A batch with a tuple that [insert_order] refuses on every content with
    the customers of the connection is rolled back as a whole. *)
Lemma load_orders_raises (conn : connection) (rows : list order_values)
  (v : order_values) :
  In v rows ->
  (forall d, customers d = customers (current conn) ->
             exists e, insert_order d v = inl e) ->
  exists e, load_orders conn rows = (rollback conn, Some e).
Proof.
  intros Hin Hrej.
  destruct (executemany_raises insert_order
              (fun d => customers d = customers (current conn))
              conn rows v) as (conn' & e & H); auto.
  - intros d w d' Hd Hw. rewrite <- Hd. eapply insert_order_customers, Hw.
  - exists e. unfold load_orders. eapply with_conn_raises; [exact H|].
    pose proof (executemany_committed insert_order conn rows) as Hc.
    now rewrite H in Hc.
Qed.

(** C6. A batch given to [load_orders] in which some tuple carries a
    customer_id that no row of [customers] has raises an integrity error,
    and the connection is rolled back: the committed content is the one
    before the call and no write of the batch stays; on a connection
    without an open transaction the tables are as they were. *)
Theorem load_orders_orphan_rolls_back (conn : connection)
  (rows : list order_values) (v : order_values) (cid : Z) :
  In v rows -> v_customer_id v = Some cid ->
  customer_exists (current conn) cid = false ->
  exists e,
    load_orders conn rows = (rollback conn, Some e) /\
    committed (fst (load_orders conn rows)) = committed conn /\
    current (fst (load_orders conn rows)) = committed conn /\
    (idle conn -> fst (load_orders conn rows) = conn).
Proof.
  intros Hin Hv Hc.
  destruct (load_orders_raises conn rows v Hin) as [e He].
  - intros d Hd. apply (insert_order_orphan d v cid Hv).
    unfold customer_exists in *. now rewrite Hd.
  - exists e. rewrite He. simpl. repeat split. apply rollback_idle.
Qed.

Lemma load_orders_orphan_rolls_back_witness :
  exists e,
    load_orders (connect seeded_db)
      [ mkOrderValues (Some 1) (Some "2023-06-02") (Some "Home") (Some 12%Q)
                      (Some "PAID");
        mkOrderValues (Some 7) (Some "2023-06-03") (Some "Home") (Some 15%Q)
                      (Some "PAID");
        mkOrderValues (Some 1) (Some "2023-06-04") (Some "Home") (Some 18%Q)
                      (Some "PAID") ]
    = (connect seeded_db, Some e).
Proof.
  destruct (load_orders_orphan_rolls_back (connect seeded_db)
              [ mkOrderValues (Some 1) (Some "2023-06-02") (Some "Home")
                              (Some 12%Q) (Some "PAID");
                mkOrderValues (Some 7) (Some "2023-06-03") (Some "Home")
                              (Some 15%Q) (Some "PAID");
                mkOrderValues (Some 1) (Some "2023-06-04") (Some "Home")
                              (Some 18%Q) (Some "PAID") ]
              (mkOrderValues (Some 7) (Some "2023-06-03") (Some "Home")
                             (Some 15%Q) (Some "PAID"))
              7 (or_intror (or_introl eq_refl)) eq_refl eq_refl)
    as (e & He & _).
  exists e. exact He.
Defined.

Lemma status_check_iff (s : string) :
  status_check s = true <-> s = "PAID" \/ s = "CANCELLED" \/ s = "REFUNDED".
Proof.
  unfold status_check. rewrite !orb_true_iff, !text_eqb_eq. tauto.
Qed.

(** C7. An order whose status is not one of PAID, CANCELLED, REFUNDED is
    refused by the INSERT itself: with the other columns bound the
    statement fails on the CHECK constraint, an integrity error; SHIPPED
    is such a status; and a batch of [load_orders] that holds such a tuple
    raises and is rolled back as a whole. *)
Theorem order_status_checked (conn : connection) (rows : list order_values)
  (v : order_values) (s : string) :
  In v rows -> v_status v = Some s ->
  ~ (s = "PAID" \/ s = "CANCELLED" \/ s = "REFUNDED") ->
  (forall d cid dt cat a,
     insert_order d (mkOrderValues (Some cid) (Some dt) (Some cat) (Some a)
                                   (Some s))
     = inl (CheckFailed "orders")) /\
  (forall d, exists e, insert_order d v = inl e) /\
  status_check "SHIPPED" = false /\
  exists e,
    load_orders conn rows = (rollback conn, Some e) /\
    (idle conn -> fst (load_orders conn rows) = conn).
Proof.
  intros Hin Hv Hs.
  assert (Hc : status_check s = false).
  { destruct (status_check s) eqn:E; [|reflexivity].
    apply status_check_iff in E. contradiction. }
  split.
  { intros d cid dt cat a. unfold insert_order. simpl. now rewrite Hc. }
  split; [intros d; now apply (insert_order_bad_status d v s)|].
  split; [reflexivity|].
  destruct (load_orders_raises conn rows v Hin) as [e He].
  - intros d _. now apply (insert_order_bad_status d v s).
  - exists e. rewrite He. simpl. split; [reflexivity | apply rollback_idle].
Qed.

Lemma order_status_checked_witness :
  exists e,
    load_orders (connect seeded_db)
      [ mkOrderValues (Some 1) (Some "2023-06-02") (Some "Home") (Some 12%Q)
                      (Some "PAID");
        mkOrderValues (Some 1) (Some "2023-06-03") (Some "Home") (Some 15%Q)
                      (Some "SHIPPED") ]
    = (connect seeded_db, Some e).
Proof.
  destruct (order_status_checked (connect seeded_db)
              [ mkOrderValues (Some 1) (Some "2023-06-02") (Some "Home")
                              (Some 12%Q) (Some "PAID");
                mkOrderValues (Some 1) (Some "2023-06-03") (Some "Home")
                              (Some 15%Q) (Some "SHIPPED") ]
              (mkOrderValues (Some 1) (Some "2023-06-03") (Some "Home")
                             (Some 15%Q) (Some "SHIPPED"))
              "SHIPPED" (or_intror (or_introl eq_refl)) eq_refl)
    as (_ & _ & _ & e & He & _).
  - intros [H|[H|H]]; discriminate H.
  - exists e. exact He.
Defined.

(** ** demo_tx_and_params *)

Lemma insert_temporal (today : string) (d : db) :
  insert_customer d (temporal today) =
  if email_taken d demo_email
  then inl (UniqueFailed "customers.email")
  else inr (mkDb (customers d ++
                    [mkCustomer (next_id (map c_customer_id (customers d)))
                                "Temporal" "Test" demo_email
                                (Some "Santiago") today])
                 (orders d)).
Proof. reflexivity. Qed.

Lemma email_taken_after (d : db) (c : customer) :
  email_taken (mkDb (customers d ++ [c]) (orders d)) (c_email c) = true.
Proof.
  unfold email_taken. simpl. rewrite existsb_app. simpl.
  unfold text_eqb. rewrite String.eqb_refl. apply orb_true_iff. right.
  reflexivity.
Qed.

(** The block of the demo always raises the UNIQUE failure: at the second
    INSERT, or at the first when the address is already in the table. *)
Lemma demo_body_raises (today : string) (conn : connection) :
  exists conn',
    demo_body today conn = (conn', Some (UniqueFailed "customers.email")) /\
    committed conn' = committed conn.
Proof.
  unfold demo_body, execute. rewrite insert_temporal.
  destruct (email_taken (current conn) demo_email) eqn:E.
  - exists conn. auto.
  - cbn [current committed]. rewrite insert_temporal.
    rewrite (email_taken_after (current conn)
               (mkCustomer _ "Temporal" "Test" demo_email (Some "Santiago")
                           today)).
    eexists. split; reflexivity.
Qed.

Lemma demo_result_eq (today : string) (conn : connection) :
  demo_tx_and_params today conn =
  mkDemoResult (rollback conn) (Some (UniqueFailed "customers.email"))
               (count_customers_in_city (rollback conn) "Santiago").
Proof.
  unfold demo_tx_and_params.
  destruct (demo_body_raises today conn) as (conn' & H & Hc).
  now rewrite (with_conn_raises (demo_body today) conn conn' _ H Hc).
Qed.

(** C5. On a connection without an open transaction, whatever the tables
    hold, [demo_tx_and_params] leaves the connection as it found it: the
    block raises the UNIQUE failure on the e-mail, an integrity error that
    the demo catches, the transaction is rolled back, the number of
    customers is the one before the demo and the count by city it prints
    is the one of the tables before the demo. When the address of the
    demo is not in the table, the first INSERT goes through (one customer
    more inside the transaction) and it is the second that fails. *)
Theorem demo_rolls_back (today : string) (conn : connection) :
  idle conn ->
  demo_conn (demo_tx_and_params today conn) = conn /\
  demo_caught (demo_tx_and_params today conn) =
    Some (UniqueFailed "customers.email") /\
  count_customers (demo_conn (demo_tx_and_params today conn)) =
    count_customers conn /\
  demo_count (demo_tx_and_params today conn) =
    count_customers_in_city conn "Santiago" /\
  (email_taken (current conn) demo_email = false ->
   exists conn1,
     execute insert_customer conn (temporal today) = (conn1, None) /\
     count_customers conn1 = count_customers conn + 1 /\
     execute insert_customer conn1 (temporal today) =
       (conn1, Some (UniqueFailed "customers.email"))).
Proof.
  intros Hidle. rewrite demo_result_eq, (rollback_idle conn Hidle). simpl.
  repeat split. intros Hfree.
  unfold execute. rewrite insert_temporal, Hfree.
  eexists. split; [reflexivity|]. cbn [current committed]. split.
  - unfold count_customers. simpl. rewrite length_app. simpl. lia.
  - rewrite insert_temporal.
    now rewrite (email_taken_after (current conn)
                   (mkCustomer _ "Temporal" "Test" demo_email
                               (Some "Santiago") today)).
Qed.

Lemma demo_rolls_back_witness :
  idle (connect seeded_db) /\
  count_customers
    (demo_conn (demo_tx_and_params "2024-05-01" (connect seeded_db))) = 1.
Proof.
  assert (Hidle : idle (connect seeded_db)) by reflexivity.
  split; [exact Hidle|].
  destruct (demo_rolls_back "2024-05-01" (connect seeded_db) Hidle)
    as (_ & _ & Hcount & _).
  rewrite Hcount. reflexivity.
Defined.

(** ** States the program reaches *)

Section Invariants.
Context {V : Type}.
Variable insert : db -> V -> integrity_error + db.
Variable inv : db -> Prop.
Hypothesis insert_inv :
  forall d v d', inv d -> insert d v = inr d' -> inv d'.

Lemma executemany_inv (conn : connection) (rows : list V) :
  inv (current conn) ->
  inv (current (fst (executemany insert conn rows))).
Proof.
  revert conn. induction rows as [|v rows IH]; intros conn H; simpl;
    [exact H|].
  unfold execute at 1.
  destruct (insert (current conn) v) as [e|d'] eqn:E; [exact H|].
  apply IH. simpl. eauto.
Qed.

(** A bulk load keeps an invariant of its INSERT, committed or not. *)
Lemma bulk_load_inv (conn : connection) (rows : list V) :
  inv (committed conn) -> inv (current conn) ->
  inv (committed (fst (with_conn (fun c => executemany insert c rows) conn)))
  /\ inv (current (fst (with_conn (fun c => executemany insert c rows) conn))).
Proof.
  intros Hc Hw. unfold with_conn.
  pose proof (executemany_inv conn rows Hw) as H1.
  pose proof (executemany_committed insert conn rows) as H2.
  destruct (executemany insert conn rows) as [conn' [e|]]; simpl in *.
  - rewrite H2. auto.
  - auto.
Qed.
End Invariants.

Lemma bulk_load_idle {V} (insert : db -> V -> integrity_error + db)
  (conn : connection) (rows : list V) :
  idle (fst (with_conn (fun c => executemany insert c rows) conn)).
Proof.
  unfold with_conn, idle.
  destruct (executemany insert conn rows) as [conn' [e|]]; reflexivity.
Qed.

Lemma next_id_fresh (ids : list Z) : ~ In (next_id ids) ids.
Proof.
  assert (H : forall x, In x ids -> x <= fold_right Z.max 0 ids).
  { induction ids as [|y ids IH]; simpl; [contradiction|].
    intros x [->|Hx]; [lia|]. specialize (IH x Hx). lia. }
  intros Hin. apply H in Hin. unfold next_id in Hin. lia.
Qed.

Lemma insert_customer_pk (d : db) (v : customer_values) (d' : db) :
  customers_pk d -> insert_customer d v = inr d' -> customers_pk d'.
Proof.
  unfold insert_customer, customers_pk. intros Hpk.
  destruct (v_first_name v); [|discriminate].
  destruct (v_last_name v); [|discriminate].
  destruct (v_email v); [|discriminate].
  destruct (v_signup_date v); [|discriminate].
  destruct (email_taken d _); [discriminate|].
  intros H. inversion H; subst. clear H. simpl. rewrite map_app. simpl.
  eapply Permutation_NoDup; [apply Permutation_cons_append|].
  constructor; [apply next_id_fresh | exact Hpk].
Qed.

Lemma insert_order_pk (d : db) (v : order_values) (d' : db) :
  customers_pk d -> insert_order d v = inr d' -> customers_pk d'.
Proof.
  unfold customers_pk. intros Hpk H.
  now rewrite (insert_order_customers d d' v H).
Qed.

(** The program never leaves a transaction open, and the PRIMARY KEY of
    [customers] holds in every state it reaches. *)
Lemma reachable_idle (conn : connection) : reachable conn -> idle conn.
Proof.
  induction 1.
  - reflexivity.
  - apply bulk_load_idle.
  - apply bulk_load_idle.
  - rewrite demo_result_eq. reflexivity.
Qed.

Lemma reachable_customers_pk (conn : connection) :
  reachable conn -> customers_pk (committed conn).
Proof.
  intros H. pose proof (reachable_idle conn H) as Hidle. revert Hidle.
  induction H as [|conn rows H IH|conn rows H IH|today conn H IH];
    intros Hidle.
  - constructor.
  - pose proof (reachable_idle conn H) as Hi. specialize (IH Hi).
    apply (bulk_load_inv insert_customer customers_pk insert_customer_pk);
      [exact IH | now rewrite Hi].
  - pose proof (reachable_idle conn H) as Hi. specialize (IH Hi).
    apply (bulk_load_inv insert_order customers_pk insert_order_pk);
      [exact IH | now rewrite Hi].
  - rewrite demo_result_eq. simpl. apply IH. now apply reachable_idle.
Qed.

(** ** The amount of an order *)

(** C8, as stated, fails: the schema puts no CHECK on [amount], so a
    reachable state holds an order of amount -5. *)
Lemma order_amount_sign_unchecked :
  reachable negative_amount_conn /\
  orders (committed negative_amount_conn) =
    [ mkOrder 1 1 "2023-06-01" "Books" (-5) "PAID" ] /\
  ~ Forall (fun o => (0 < o_amount o)%Q)
           (orders (committed negative_amount_conn)).
Proof.
  split; [apply reach_load_orders, reach_load_customers, reach_connect|].
  split; [reflexivity|].
  intros H. change (orders (committed negative_amount_conn))
    with [ mkOrder 1 1 "2023-06-01" "Books" (-5) "PAID" ] in H.
  inversion H as [|o os Hneg _]; subst. simpl in Hneg. discriminate Hneg.
Qed.

Lemma insert_order_amount (P : Q -> Prop) (v : order_values) (d d' : db) :
  (forall a, v_amount v = Some a -> P a) ->
  Forall (fun o => P (o_amount o)) (orders d) ->
  insert_order d v = inr d' ->
  Forall (fun o => P (o_amount o)) (orders d').
Proof.
  unfold insert_order. intros Hv Hd.
  destruct (v_customer_id v); [|discriminate].
  destruct (v_order_date v); [|discriminate].
  destruct (v_category v); [|discriminate].
  destruct (v_amount v) as [a|]; [|discriminate].
  destruct (v_status v); [|discriminate].
  destruct (negb (status_check _)); [discriminate|].
  destruct (negb (customer_exists _ _)); [discriminate|].
  intros H. inversion H; subst. clear H. simpl.
  apply Forall_app. split; [exact Hd|]. constructor; [|constructor].
  simpl. now apply Hv.
Qed.

Lemma executemany_orders_amount (P : Q -> Prop) (rows : list order_values)
  (conn : connection) :
  Forall (fun v => forall a, v_amount v = Some a -> P a) rows ->
  Forall (fun o => P (o_amount o)) (orders (current conn)) ->
  Forall (fun o => P (o_amount o))
         (orders (current (fst (executemany insert_order conn rows)))).
Proof.
  revert conn. induction rows as [|v rows IH]; intros conn Hrows Hc; simpl;
    [exact Hc|].
  inversion Hrows as [|? ? Hv Hrest]; subst.
  unfold execute at 1.
  destruct (insert_order (current conn) v) as [e|d'] eqn:E; [exact Hc|].
  apply IH; [exact Hrest|]. simpl.
  eapply insert_order_amount; eauto.
Qed.

(** C8, amended. The store checks the amount of an order for NOT NULL
    only: a tuple with a NULL amount is refused with an integrity error,
    and a tuple with any amount, whatever its sign, is stored when its
    status is in the enumeration and its customer exists. The sign of the
    stored amounts is the sign of the amounts bound: a batch whose amounts
    are all positive, loaded over orders of positive amounts, leaves
    orders of positive amounts. *)
Theorem order_amount_not_null_only (conn : connection)
  (rows : list order_values) :
  Forall (fun v => forall a, v_amount v = Some a -> (0 < a)%Q) rows ->
  Forall positive_amount (orders (committed conn)) ->
  Forall positive_amount (orders (current conn)) ->
  (forall d v, v_amount v = None -> exists e, insert_order d v = inl e) /\
  (forall d cid dt cat a st,
     status_check st = true -> customer_exists d cid = true ->
     insert_order d (mkOrderValues (Some cid) (Some dt) (Some cat) (Some a)
                                   (Some st)) =
     inr (mkDb (customers d)
               (orders d ++
                  [mkOrder (next_id (map o_order_id (orders d)))
                           cid dt cat a st]))) /\
  Forall positive_amount (orders (committed (fst (load_orders conn rows)))) /\
  Forall positive_amount (orders (current (fst (load_orders conn rows)))).
Proof.
  intros Hrows Hc Hw. split.
  { intros d v Hv. unfold insert_order. rewrite Hv.
    destruct (v_customer_id v); [|eauto].
    destruct (v_order_date v); [|eauto].
    destruct (v_category v); eauto. }
  split.
  { intros d cid dt cat a st Hs Hcid. unfold insert_order. simpl.
    now rewrite Hs, Hcid. }
  unfold load_orders, with_conn.
  pose proof (executemany_orders_amount (fun a => (0 < a)%Q) rows conn
                Hrows Hw) as H1.
  pose proof (executemany_committed insert_order conn rows) as H2.
  destruct (executemany insert_order conn rows) as [conn' [e|]];
    simpl in *.
  - rewrite H2. split; exact Hc.
  - split; exact H1.
Qed.

Lemma order_amount_not_null_only_witness :
  Forall positive_amount
    (orders (committed
       (fst (load_orders (connect seeded_db)
               [ mkOrderValues (Some 1) (Some "2023-06-02") (Some "Home")
                               (Some 12%Q) (Some "PAID") ])))).
Proof.
  refine (proj1 (proj2 (proj2
            (order_amount_not_null_only (connect seeded_db)
               [ mkOrderValues (Some 1) (Some "2023-06-02") (Some "Home")
                               (Some 12%Q) (Some "PAID") ] _ _ _)))).
  - constructor; [|constructor]. simpl. intros a E. inversion E. reflexivity.
  - constructor; [|constructor]. reflexivity.
  - constructor; [|constructor]. reflexivity.
Defined.

(** * Further properties *)

(** ** Keys assigned by the engine *)

Lemma fold_max_nonneg (l : list Z) : 0 <= fold_right Z.max 0 l.
Proof. induction l as [|x l IH]; simpl; lia. Qed.

Lemma fold_max_snoc (l : list Z) (x : Z) :
  fold_right Z.max 0 (l ++ [x]) = Z.max (fold_right Z.max 0 l) (Z.max x 0).
Proof. induction l as [|y l IH]; simpl; lia. Qed.

(** The key after a key the engine assigned is the next integer. *)
Lemma next_id_snoc (ids : list Z) :
  next_id (ids ++ [next_id ids]) = next_id ids + 1.
Proof.
  unfold next_id. rewrite fold_max_snoc.
  pose proof (fold_max_nonneg ids). lia.
Qed.

Lemma connection_eta (conn : connection) :
  conn = mkConnection (committed conn)
                      (mkDb (customers (current conn))
                            (orders (current conn))).
Proof. destruct conn as [c [cs os]]. reflexivity. Qed.

(** ** load_orders, tuple by tuple *)

Lemma insert_order_accepted (d : db) (v : order_values) :
  order_accepted (customers d) v = true ->
  exists o,
    order_of_values (next_id (map o_order_id (orders d))) v = Some o /\
    o_order_id o = next_id (map o_order_id (orders d)) /\
    insert_order d v = inr (mkDb (customers d) (orders d ++ [o])).
Proof.
  unfold order_accepted, order_of_values, insert_order, customer_exists.
  destruct (v_customer_id v) as [cid|]; [|discriminate].
  destruct (v_order_date v) as [dt|]; [|discriminate].
  destruct (v_category v) as [cat|]; [|discriminate].
  destruct (v_amount v) as [a|]; [|discriminate].
  destruct (v_status v) as [st|]; [|discriminate].
  simpl. intros H. apply andb_true_iff in H. destruct H as [Hs Hc].
  rewrite Hs, Hc. simpl. eexists. repeat split.
Qed.

Lemma insert_order_refused (d : db) (v : order_values) :
  order_accepted (customers d) v = false ->
  exists e, insert_order d v = inl e.
Proof.
  unfold order_accepted, order_of_values, insert_order, customer_exists.
  destruct (v_customer_id v) as [cid|]; [|eauto].
  destruct (v_order_date v) as [dt|]; [|eauto].
  destruct (v_category v) as [cat|]; [|eauto].
  destruct (v_amount v) as [a|]; [|eauto].
  destruct (v_status v) as [st|]; [|eauto].
  simpl. intros H. apply andb_false_iff in H.
  destruct (status_check st); simpl; [|eauto].
  destruct H as [H|H]; [discriminate|]. rewrite H. simpl. eauto.
Qed.

Lemma executemany_orders_accepted (rows : list order_values)
  (conn : connection) :
  forallb (order_accepted (customers (current conn))) rows = true ->
  executemany insert_order conn rows =
  (mkConnection (committed conn)
     (mkDb (customers (current conn))
           (orders (current conn) ++
            stored_rows order_of_values
              (next_id (map o_order_id (orders (current conn)))) rows)),
   None).
Proof.
  revert conn. induction rows as [|v rows IH]; intros conn H.
  - simpl. unfold stored_rows. simpl. rewrite app_nil_r.
    now rewrite <- connection_eta.
  - simpl in H. apply andb_true_iff in H. destruct H as [Hv Hrows].
    destruct (insert_order_accepted (current conn) v Hv)
      as (o & Ho & Hid & Hins).
    cbn [executemany]. unfold execute at 1. rewrite Hins.
    rewrite IH by exact Hrows. cbn [committed current customers orders].
    rewrite map_app. cbn [map]. rewrite Hid, next_id_snoc.
    unfold stored_rows. cbn [number_from flat_map fst snd].
    rewrite Ho, <- app_assoc. reflexivity.
Qed.

Lemma forallb_false_exists {A} (p : A -> bool) (l : list A) :
  forallb p l = false -> exists a, In a l /\ p a = false.
Proof.
  induction l as [|a l IH]; simpl; [discriminate|].
  destruct (p a) eqn:E; simpl.
  - intros H. destruct (IH H) as [b [Hb Pb]]. exists b. auto.
  - intros _. exists a. auto.
Qed.

Lemma load_orders_accepted_result (conn : connection)
  (rows : list order_values) :
  forallb (order_accepted (customers (current conn))) rows = true ->
  load_orders conn rows =
  (commit (mkConnection (committed conn)
     (mkDb (customers (current conn))
           (orders (current conn) ++
            stored_rows order_of_values
              (next_id (map o_order_id (orders (current conn)))) rows))),
   None).
Proof.
  intros H. unfold load_orders, with_conn.
  now rewrite (executemany_orders_accepted rows conn H).
Qed.

Lemma load_orders_refused_result (conn : connection)
  (rows : list order_values) :
  forallb (order_accepted (customers (current conn))) rows = false ->
  exists e, load_orders conn rows = (rollback conn, Some e).
Proof.
  intros H. apply forallb_false_exists in H. destruct H as [v [Hin Hv]].
  apply (load_orders_raises conn rows v Hin).
  intros d Hd. apply insert_order_refused. now rewrite Hd.
Qed.

(** X1. [load_orders] stores a batch all or nothing. When every tuple is
    complete, has a status of the enumeration and a customer that exists,
    the batch is committed: the orders are the old ones followed by the
    tuples in order, under consecutive keys, and the customers are
    untouched. Otherwise it raises an integrity error and the connection
    is rolled back to its committed content. *)
Theorem load_orders_all_or_nothing (conn : connection)
  (rows : list order_values) :
  (forallb (order_accepted (customers (current conn))) rows = true ->
   load_orders conn rows =
   (commit (mkConnection (committed conn)
      (mkDb (customers (current conn))
            (orders (current conn) ++
             stored_rows order_of_values
               (next_id (map o_order_id (orders (current conn)))) rows))),
    None)) /\
  (forallb (order_accepted (customers (current conn))) rows = false ->
   exists e, load_orders conn rows = (rollback conn, Some e)).
Proof.
  split; [apply load_orders_accepted_result
         | apply load_orders_refused_result].
Qed.

Lemma load_orders_all_or_nothing_witness :
  orders (committed (fst (load_orders (connect seeded_db) accepted_batch))) =
  [ mkOrder 1 1 "2023-06-01" "Books" 30 "PAID";
    mkOrder 2 1 "2023-06-02" "Home" 12 "PAID";
    mkOrder 3 1 "2023-06-03" "Books" 15 "REFUNDED" ] /\
  exists e, load_orders (connect seeded_db) orphan_batch =
            (connect seeded_db, Some e).
Proof.
  split.
  - rewrite (proj1 (load_orders_all_or_nothing (connect seeded_db)
                        accepted_batch) eq_refl).
    reflexivity.
  - exact (proj2 (load_orders_all_or_nothing (connect seeded_db)
                    orphan_batch) eq_refl).
Defined.

(** ** load_customers, tuple by tuple *)

Lemma email_taken_in (d : db) (e : string) :
  email_taken d e = true <-> In e (map c_email (customers d)).
Proof.
  unfold email_taken. rewrite existsb_exists, in_map_iff.
  split; intros [c [H1 H2]]; exists c.
  - apply text_eqb_eq in H2. auto.
  - split; [tauto|]. apply text_eqb_eq. tauto.
Qed.

Lemma insert_customer_inv (d d' : db) (v : customer_values) :
  insert_customer d v = inr d' ->
  exists c e,
    customer_of_values (next_id (map c_customer_id (customers d))) v = Some c
    /\ v_email v = Some e /\ c_email c = e
    /\ c_customer_id c = next_id (map c_customer_id (customers d))
    /\ email_taken d e = false
    /\ d' = mkDb (customers d ++ [c]) (orders d).
Proof.
  unfold insert_customer, customer_of_values.
  destruct (v_first_name v) as [f|]; [|discriminate].
  destruct (v_last_name v) as [l|]; [|discriminate].
  destruct (v_email v) as [e|]; [|discriminate].
  destruct (v_signup_date v) as [s|]; [|discriminate].
  destruct (email_taken d e) eqn:E; [discriminate|].
  intros H. inversion H. eexists _, e. repeat split. exact E.
Qed.

Lemma insert_customer_complete (d : db) (v : customer_values) (e : string) :
  customer_complete v = true -> v_email v = Some e ->
  email_taken d e = false ->
  exists c,
    customer_of_values (next_id (map c_customer_id (customers d))) v = Some c
    /\ c_email c = e
    /\ c_customer_id c = next_id (map c_customer_id (customers d))
    /\ insert_customer d v = inr (mkDb (customers d ++ [c]) (orders d)).
Proof.
  unfold customer_complete, insert_customer, customer_of_values.
  destruct (v_first_name v) as [f|]; [|discriminate].
  destruct (v_last_name v) as [l|]; [|discriminate].
  destruct (v_email v) as [e'|]; [|discriminate].
  destruct (v_signup_date v) as [s|]; [|discriminate].
  intros _ He Hfree. inversion He; subst. rewrite Hfree.
  eexists. repeat split.
Qed.

Lemma complete_has_email (v : customer_values) :
  customer_complete v = true -> exists e, v_email v = Some e.
Proof.
  unfold customer_complete, customer_of_values.
  destruct (v_first_name v); [|discriminate].
  destruct (v_last_name v); [|discriminate].
  destruct (v_email v) as [e|]; [eauto | discriminate].
Qed.

Lemma executemany_customers_accepted (rows : list customer_values)
  (conn : connection) :
  customers_accepted (current conn) rows ->
  executemany insert_customer conn rows =
  (mkConnection (committed conn)
     (mkDb (customers (current conn) ++
            stored_rows customer_of_values
              (next_id (map c_customer_id (customers (current conn)))) rows)
           (orders (current conn))),
   None).
Proof.
  revert conn. induction rows as [|v rows IH]; intros conn (Hc & Hnd & Hfree).
  - simpl. unfold stored_rows. simpl. rewrite app_nil_r.
    now rewrite <- connection_eta.
  - simpl in Hc. apply andb_true_iff in Hc. destruct Hc as [Hv Hrows].
    destruct (complete_has_email v Hv) as [e He].
    assert (Hb : batch_emails (v :: rows) = e :: batch_emails rows)
      by (unfold batch_emails; simpl; now rewrite He).
    rewrite Hb in Hnd, Hfree. inversion Hnd as [|? ? Hne Hnd']; subst.
    destruct (insert_customer_complete (current conn) v e Hv He)
      as (c & Hcv & Hce & Hid & Hins); [apply Hfree; now left|].
    cbn [executemany]. unfold execute at 1. rewrite Hins.
    rewrite IH.
    + cbn [committed current customers orders].
      rewrite map_app. cbn [map]. rewrite Hid, next_id_snoc.
      unfold stored_rows. cbn [number_from flat_map fst snd].
      rewrite Hcv, <- app_assoc. reflexivity.
    + cbn [current]. split; [exact Hrows|]. split; [exact Hnd'|].
      intros e' He'.
      destruct (email_taken (mkDb (customers (current conn) ++ [c])
                                  (orders (current conn))) e') eqn:T;
        [|reflexivity].
      apply email_taken_in in T. cbn [customers] in T.
      rewrite map_app in T. apply in_app_or in T. destruct T as [T|T].
      * apply email_taken_in in T. rewrite Hfree in T by now right.
        discriminate.
      * simpl in T. destruct T as [T|[]]. congruence.
Qed.

Lemma executemany_customers_inv (rows : list customer_values)
  (conn conn' : connection) :
  executemany insert_customer conn rows = (conn', None) ->
  customers_accepted (current conn) rows.
Proof.
  revert conn. induction rows as [|v rows IH]; intros conn H.
  - repeat split; [constructor | intros e []].
  - cbn [executemany] in H. unfold execute at 1 in H.
    destruct (insert_customer (current conn) v) as [e|d'] eqn:E;
      [discriminate|].
    apply insert_customer_inv in E.
    destruct E as (c & e & Hcv & He & Hce & Hid & Hfree & ->).
    apply IH in H. cbn [current] in H. destruct H as (Hc & Hnd & Hrest).
    assert (Hb : batch_emails (v :: rows) = e :: batch_emails rows)
      by (unfold batch_emails; simpl; now rewrite He).
    assert (Hnew : forall e', In e' (batch_emails rows) ->
                     e' <> e /\ email_taken (current conn) e' = false).
    { intros e' He'. specialize (Hrest e' He'). split.
      - intros ->.
        assert (T : email_taken (mkDb (customers (current conn) ++ [c])
                                      (orders (current conn))) e = true).
        { apply email_taken_in. cbn [customers]. rewrite map_app.
          apply in_or_app. right. simpl. auto. }
        congruence.
      - destruct (email_taken (current conn) e') eqn:T; [|reflexivity].
        apply email_taken_in in T.
        assert (T' : email_taken (mkDb (customers (current conn) ++ [c])
                                       (orders (current conn))) e' = true).
        { apply email_taken_in. cbn [customers]. rewrite map_app.
          apply in_or_app. now left. }
        congruence. }
    split; [|split].
    + simpl. apply andb_true_iff. split; [|exact Hc].
      unfold customer_complete.
      replace (customer_of_values 0 v)
        with (option_map (fun c => mkCustomer 0 (c_first_name c)
                (c_last_name c) (c_email c) (c_city c) (c_signup_date c))
                (customer_of_values
                   (next_id (map c_customer_id (customers (current conn))))
                   v)).
      * now rewrite Hcv.
      * unfold customer_of_values.
        destruct (v_first_name v), (v_last_name v), (v_email v),
                 (v_signup_date v); reflexivity.
    + rewrite Hb. constructor; [|exact Hnd].
      intros Hin. now destruct (Hnew e Hin).
    + rewrite Hb. intros e' [<-|He']; [exact Hfree|].
      now destruct (Hnew e' He').
Qed.

Lemma load_customers_accepted_result (conn : connection)
  (rows : list customer_values) :
  customers_accepted (current conn) rows ->
  load_customers conn rows =
  (commit (mkConnection (committed conn)
     (mkDb (customers (current conn) ++
            stored_rows customer_of_values
              (next_id (map c_customer_id (customers (current conn)))) rows)
           (orders (current conn)))),
   None).
Proof.
  intros H. unfold load_customers, with_conn.
  now rewrite (executemany_customers_accepted rows conn H).
Qed.

Lemma load_customers_refused_result (conn : connection)
  (rows : list customer_values) :
  ~ customers_accepted (current conn) rows ->
  exists e, load_customers conn rows = (rollback conn, Some e).
Proof.
  intros H. unfold load_customers, with_conn.
  pose proof (executemany_committed insert_customer conn rows) as Hc.
  destruct (executemany insert_customer conn rows) as [conn' [e|]] eqn:E.
  - exists e. unfold rollback. simpl in Hc. now rewrite Hc.
  - exfalso. apply H. eapply executemany_customers_inv, E.
Qed.

(** X2. [load_customers] stores a batch all or nothing. When no tuple has
    a NULL in a NOT NULL column and the addresses of the batch differ from
    each other and from those of the table, the batch is committed: the
    customers are the old ones followed by the tuples in order, under
    consecutive keys, and the orders are untouched. In every other case it
    raises an integrity error and the connection is rolled back to its
    committed content. *)
Theorem load_customers_all_or_nothing (conn : connection)
  (rows : list customer_values) :
  (customers_accepted (current conn) rows ->
   load_customers conn rows =
   (commit (mkConnection (committed conn)
      (mkDb (customers (current conn) ++
             stored_rows customer_of_values
               (next_id (map c_customer_id (customers (current conn)))) rows)
            (orders (current conn)))),
    None)) /\
  (~ customers_accepted (current conn) rows ->
   exists e, load_customers conn rows = (rollback conn, Some e)).
Proof.
  split; [apply load_customers_accepted_result
         | apply load_customers_refused_result].
Qed.

Lemma load_customers_all_or_nothing_witness :
  exists e, load_customers (connect seeded_db) duplicate_email_batch =
            (connect seeded_db, Some e).
Proof.
  apply (proj2 (load_customers_all_or_nothing (connect seeded_db)
                  duplicate_email_batch)).
  intros (_ & Hnd & _). simpl in Hnd. inversion Hnd as [|? ? Hin _]; subst.
  apply Hin. now left.
Defined.

(** ** Constraints kept by the writes *)

Lemma statuses_check (s : string) : In s STATUSES <-> status_check s = true.
Proof.
  rewrite status_check_iff. unfold STATUSES. simpl.
  split; intros H; repeat destruct H as [H|H]; subst; auto; contradiction.
Qed.

Lemma nodup_snoc {A} (l : list A) (a : A) :
  NoDup l -> ~ In a l -> NoDup (l ++ [a]).
Proof.
  intros Hl Ha. eapply Permutation_NoDup; [apply Permutation_cons_append|].
  now constructor.
Qed.

Lemma insert_customer_keys (d : db) (v : customer_values) (d' : db) :
  keys_unique d -> insert_customer d v = inr d' -> keys_unique d'.
Proof.
  intros (Hid & Hem & Hoid) H. apply insert_customer_inv in H.
  destruct H as (c & e & _ & _ & Hce & Hcid & Hfree & ->).
  unfold keys_unique. cbn [customers orders]. rewrite !map_app. cbn [map].
  repeat split; [| |exact Hoid].
  - apply nodup_snoc; [exact Hid|]. rewrite Hcid. apply next_id_fresh.
  - apply nodup_snoc; [exact Hem|]. rewrite Hce. intros Hin.
    apply email_taken_in in Hin. congruence.
Qed.

Lemma insert_order_inv (d d' : db) (v : order_values) :
  insert_order d v = inr d' ->
  exists o,
    o_order_id o = next_id (map o_order_id (orders d)) /\
    status_check (o_status o) = true /\
    customer_exists d (o_customer_id o) = true /\
    order_of_values (o_order_id o) v = Some o /\
    d' = mkDb (customers d) (orders d ++ [o]).
Proof.
  unfold insert_order, order_of_values.
  destruct (v_customer_id v) as [cid|]; [|discriminate].
  destruct (v_order_date v) as [dt|]; [|discriminate].
  destruct (v_category v) as [cat|]; [|discriminate].
  destruct (v_amount v) as [a|]; [|discriminate].
  destruct (v_status v) as [st|]; [|discriminate].
  destruct (status_check st) eqn:S; [|discriminate].
  destruct (customer_exists d cid) eqn:C; [|discriminate].
  simpl. intros H. inversion H. eexists. repeat split; simpl; auto.
Qed.

Lemma insert_order_keys (d : db) (v : order_values) (d' : db) :
  keys_unique d -> insert_order d v = inr d' -> keys_unique d'.
Proof.
  intros (Hid & Hem & Hoid) H. apply insert_order_inv in H.
  destruct H as (o & Ho & _ & _ & _ & ->).
  unfold keys_unique. cbn [customers orders]. rewrite map_app. cbn [map].
  repeat split; [exact Hid | exact Hem |].
  apply nodup_snoc; [exact Hoid|]. rewrite Ho. apply next_id_fresh.
Qed.

Lemma insert_customer_references (d : db) (v : customer_values) (d' : db) :
  references_hold d -> insert_customer d v = inr d' -> references_hold d'.
Proof.
  intros Href H. apply insert_customer_inv in H.
  destruct H as (c & e & _ & _ & _ & _ & _ & ->).
  intros o Ho. cbn [orders] in Ho. destruct (Href o Ho) as [Hc Hs].
  split; [|exact Hs]. unfold customer_exists in *. cbn [customers].
  rewrite existsb_app, Hc. reflexivity.
Qed.

Lemma insert_order_references (d : db) (v : order_values) (d' : db) :
  references_hold d -> insert_order d v = inr d' -> references_hold d'.
Proof.
  intros Href H. apply insert_order_inv in H.
  destruct H as (o & _ & Hs & Hc & _ & ->).
  intros o' Ho'. cbn [orders] in Ho'. apply in_app_or in Ho'.
  unfold customer_exists in *. cbn [customers].
  destruct Ho' as [Ho'|[<-|[]]]; [now apply Href|].
  split; [exact Hc | now apply statuses_check].
Qed.

(** An invariant of both INSERTs holds in every state the program
    reaches, once it holds of the empty tables. *)
Lemma reachable_inv (inv : db -> Prop) (conn : connection) :
  inv empty_db ->
  (forall d v d', inv d -> insert_customer d v = inr d' -> inv d') ->
  (forall d v d', inv d -> insert_order d v = inr d' -> inv d') ->
  reachable conn -> inv (committed conn) /\ inv (current conn).
Proof.
  intros H0 Hc Ho H.
  induction H as [|conn rows H IH|conn rows H IH|today conn H IH].
  - split; exact H0.
  - destruct IH as [IH1 IH2].
    apply (bulk_load_inv insert_customer inv Hc); assumption.
  - destruct IH as [IH1 IH2].
    apply (bulk_load_inv insert_order inv Ho); assumption.
  - rewrite demo_result_eq. simpl. tauto.
Qed.

Lemma loaded_conn_reachable : reachable loaded_conn.
Proof. apply reach_load_orders, reach_load_customers, reach_connect. Qed.

(** X3. In every state the program reaches, no two customers share a
    customer_id or an e-mail address and no two orders share an order_id,
    in the committed tables and in those the connection sees. *)
Theorem reachable_keys_unique (conn : connection) :
  reachable conn ->
  keys_unique (committed conn) /\ keys_unique (current conn).
Proof.
  apply reachable_inv.
  - repeat split; constructor.
  - apply insert_customer_keys.
  - apply insert_order_keys.
Qed.

Lemma reachable_keys_unique_witness :
  reachable loaded_conn /\ keys_unique (committed loaded_conn).
Proof.
  split; [exact loaded_conn_reachable|].
  exact (proj1 (reachable_keys_unique loaded_conn loaded_conn_reachable)).
Defined.

(** X4. In every state the program reaches, every order refers to a
    customer of the table and carries one of the statuses PAID, CANCELLED,
    REFUNDED. *)
Theorem reachable_references_hold (conn : connection) :
  reachable conn ->
  references_hold (committed conn) /\ references_hold (current conn).
Proof.
  apply reachable_inv.
  - intros o [].
  - apply insert_customer_references.
  - apply insert_order_references.
Qed.

Lemma reachable_references_hold_witness :
  reachable loaded_conn /\ references_hold (committed loaded_conn).
Proof.
  split; [exact loaded_conn_reachable|].
  exact (proj1 (reachable_references_hold loaded_conn loaded_conn_reachable)).
Defined.

(** ** Seeding *)

Lemma to_uint_nonnil (n : nat) : Nat.to_uint n <> Decimal.Nil.
Proof.
  pose proof (DecimalNat.Unsigned.to_of (Nat.to_uint n)) as H.
  rewrite DecimalNat.Unsigned.of_to in H. rewrite H.
  apply DecimalFacts.unorm_nonnil.
Qed.

Lemma decimal_inj (i j : nat) : decimal i = decimal j -> i = j.
Proof.
  unfold decimal. intros H.
  apply (f_equal DecimalString.NilZero.uint_of_string) in H.
  rewrite !DecimalString.NilZero.usu in H by apply to_uint_nonnil.
  inversion H as [E]. now apply DecimalNat.Unsigned.to_uint_inj.
Qed.

Lemma length_append (s t : string) :
  String.length (s ++ t) = (String.length s + String.length t)%nat.
Proof. induction s as [|a s IH]; simpl; [reflexivity | now rewrite IH]. Qed.

Lemma append_inj_r (s1 s2 t : string) :
  (s1 ++ t)%string = (s2 ++ t)%string -> s1 = s2.
Proof.
  revert s2. induction s1 as [|a s1 IH]; intros [|b s2] H; simpl in H.
  - reflexivity.
  - apply (f_equal String.length) in H. simpl in H.
    rewrite length_append in H. lia.
  - apply (f_equal String.length) in H. simpl in H.
    rewrite length_append in H. lia.
  - inversion H as [[Ha Hs]]. f_equal. now apply IH.
Qed.

(** [make_customers] gives every row an address of its own. *)
Lemma user_email_inj (i j : nat) : user_email i = user_email j -> i = j.
Proof.
  unfold user_email. simpl. intros H. inversion H as [E].
  apply append_inj_r in E. now apply decimal_inj.
Qed.

Lemma number_from_seq (z : Z) (a n : nat) :
  number_from z (seq a n) =
  map (fun i => (i, z + Z.of_nat i - Z.of_nat a)) (seq a n).
Proof.
  revert z a. induction n as [|n IH]; intros z a; simpl; [reflexivity|].
  f_equal; [f_equal; lia|]. rewrite IH. apply map_ext_in.
  intros i _. f_equal. lia.
Qed.

(** The rows a batch built row by row from an index leaves in a table. *)
Lemma stored_rows_map {V R : Type} (row : Z -> V -> option R)
  (mk : nat -> V) (r : Z -> nat -> R) (z : Z) (n : nat) :
  (forall id i, row id (mk i) = Some (r id i)) ->
  stored_rows row z (map mk (seq 0 n)) =
  map (fun i => r (z + Z.of_nat i) i) (seq 0 n).
Proof.
  intros H. unfold stored_rows.
  assert (E : forall (l : list nat) (z : Z),
            number_from z (map mk l) =
            map (fun p => (mk (fst p), snd p)) (number_from z l)).
  { induction l as [|x l IHl]; intros z'; simpl; [reflexivity|].
    now rewrite IHl. }
  rewrite E, number_from_seq, map_map. cbn [fst snd].
  generalize (seq 0 n) as l.
  induction l as [|i l IHl]; [reflexivity|].
  cbn [map flat_map fst snd]. rewrite H, IHl. cbn [app].
  do 2 f_equal. lia.
Qed.

Lemma nodup_map_injective {A B} (f : A -> B) (l : list A) :
  (forall a b, f a = f b -> a = b) -> NoDup l -> NoDup (map f l).
Proof.
  intros Hinj. induction 1 as [|a l Ha Hl IH]; simpl; constructor; auto.
  intros Hin. apply in_map_iff in Hin. destruct Hin as [b [E Hb]].
  apply Hinj in E. now subst.
Qed.

Lemma make_customers_accepted (g : draws) (n : nat) (d : db) :
  customers d = [] -> customers_accepted d (make_customers g n).
Proof.
  intros Hd. unfold customers_accepted, make_customers. split; [|split].
  - apply forallb_forall. intros v Hv. apply in_map_iff in Hv.
    destruct Hv as [i [<- _]]. reflexivity.
  - assert (E : batch_emails (map (fun i => mkCustomerValues
                  (Some (d_first g i)) (Some (d_last g i))
                  (Some (user_email i)) (Some (d_city g i))
                  (Some (d_signup g i))) (seq 0 n)) =
                map user_email (seq 0 n)).
    { unfold batch_emails. induction (seq 0 n) as [|i l IH]; simpl;
        [reflexivity | now rewrite IH]. }
    rewrite E. apply nodup_map_injective; [|apply seq_NoDup].
    intros i j. apply user_email_inj.
  - intros e _. unfold email_taken. now rewrite Hd.
Qed.

Lemma make_orders_accepted (g : draws) (n_customers n_orders : nat) :
  draws_in_range g n_customers n_orders ->
  forallb (order_accepted (map (seeded_customer g 1) (seq 0 n_customers)))
          (make_orders g n_orders) = true.
Proof.
  intros Hr. apply forallb_forall. intros v Hv.
  unfold make_orders in Hv. apply in_map_iff in Hv.
  destruct Hv as [i [<- Hi]]. apply in_seq in Hi.
  destruct (Hr i) as [Hc Hs]; [lia|].
  unfold order_accepted, order_of_values.
  cbn [v_customer_id v_order_date v_category v_amount v_status
       o_status o_customer_id].
  apply andb_true_iff. split; [now apply statuses_check|].
  apply existsb_exists.
  exists (seeded_customer g 1 (Z.to_nat (d_customer g i - 1))). split.
  - apply in_map, in_seq. lia.
  - unfold seeded_customer. cbn [c_customer_id]. apply Z.eqb_eq. lia.
Qed.

Lemma sample_draws_in_range : draws_in_range sample_draws 3 2.
Proof.
  intros i Hi. unfold sample_draws, STATUSES. cbn [d_customer d_status].
  split; [lia | simpl; auto].
Qed.

Lemma seed_db_fresh (g : draws) (file : db) (n_customers n_orders : nat) :
  customers file = [] -> draws_in_range g n_customers n_orders ->
  seed_db g file n_customers n_orders =
  (mkDb (map (seeded_customer g 1) (seq 0 n_customers))
        (orders file ++
         map (seeded_order g (next_id (map o_order_id (orders file))))
             (seq 0 n_orders)),
   SeedLoaded).
Proof.
  intros Hfile Hr. unfold seed_db, count_customers.
  cbn [connect current]. rewrite Hfile. cbn [List.length Z.of_nat Z.ltb Z.compare].
  rewrite (load_customers_accepted_result (connect file)
             (make_customers g n_customers))
    by (apply make_customers_accepted; exact Hfile).
  cbn [connect current committed]. rewrite Hfile. cbn [app map].
  unfold make_customers at 1.
  rewrite (stored_rows_map customer_of_values _
             (fun id i => mkCustomer id (d_first g i) (d_last g i)
                            (user_email i) (Some (d_city g i))
                            (d_signup g i)))
    by reflexivity.
  change (next_id []) with 1.
  fold (seeded_customer g 1).
  rewrite (load_orders_accepted_result _ (make_orders g n_orders))
    by (cbn [commit current customers];
        now apply (make_orders_accepted g n_customers n_orders)).
  cbn [commit current committed customers orders].
  unfold make_orders.
  rewrite (stored_rows_map order_of_values _
             (fun id i => mkOrder id (d_customer g i) (d_date g i)
                            (d_category g i) (d_amount g i) (d_status g i)))
    by reflexivity.
  reflexivity.
Qed.

(** X8. [seed_db] on a file whose [customers] table is empty, with draws
    of the generator in their ranges, ends normally: the table holds the
    n_customers rows of [make_customers] under the keys 1, 2, ... with the
    addresses user0@example.com, user1@example.com, ..., and the n_orders
    rows of [make_orders] follow the orders of the file under consecutive
    keys. No draw makes a constraint fail. *)
Theorem seed_db_loads (g : draws) (file : db) (n_customers n_orders : nat) :
  customers file = [] -> draws_in_range g n_customers n_orders ->
  seed_db g file n_customers n_orders =
  (mkDb (map (seeded_customer g 1) (seq 0 n_customers))
        (orders file ++
         map (seeded_order g (next_id (map o_order_id (orders file))))
             (seq 0 n_orders)),
   SeedLoaded).
Proof. apply seed_db_fresh. Qed.

Lemma seed_db_loads_witness :
  draws_in_range sample_draws 3 2 /\
  map c_email (customers (fst (seed_db sample_draws empty_db 3 2))) =
  ["user0@example.com"; "user1@example.com"; "user2@example.com"].
Proof.
  split; [exact sample_draws_in_range|].
  rewrite (seed_db_loads sample_draws empty_db 3 2 eq_refl
             sample_draws_in_range).
  reflexivity.
Defined.

(** X9. [seed_db] never seeds twice: on a file whose [customers] table
    holds a row it returns at once and the file is as it was, whatever the
    generator would draw; so a second call after a call that loaded at
    least one customer changes nothing. *)
Theorem seed_db_guard (g g' : draws) (file : db)
  (n_customers n_orders n_customers' n_orders' : nat) :
  (customers file <> [] ->
   seed_db g file n_customers n_orders = (file, SeedSkipped)) /\
  (customers file = [] -> draws_in_range g n_customers n_orders ->
   (0 < n_customers)%nat ->
   seed_db g' (fst (seed_db g file n_customers n_orders))
           n_customers' n_orders' =
   (fst (seed_db g file n_customers n_orders), SeedSkipped)).
Proof.
  assert (Hskip : forall h d n m,
            customers d <> [] -> seed_db h d n m = (d, SeedSkipped)).
  { intros h d n m Hd. unfold seed_db, count_customers.
    cbn [connect current]. destruct (customers d) as [|c cs] eqn:E;
      [contradiction|].
    cbn [List.length]. rewrite Nat2Z.inj_succ.
    replace (0 <? Z.succ (Z.of_nat (List.length cs))) with true
      by (symmetry; apply Z.ltb_lt; lia).
    destruct d; reflexivity. }
  split; [apply Hskip|].
  intros Hfile Hr Hn. apply Hskip.
  rewrite (seed_db_fresh g file n_customers n_orders Hfile Hr).
  cbn [fst customers]. destruct n_customers; [lia|]. discriminate.
Qed.

Lemma seed_db_guard_witness :
  seed_db sample_draws seeded_db 5 7 = (seeded_db, SeedSkipped) /\
  seed_db sample_draws (fst (seed_db sample_draws empty_db 3 2)) 5 7 =
  (fst (seed_db sample_draws empty_db 3 2), SeedSkipped).
Proof.
  split.
  - apply (proj1 (seed_db_guard sample_draws sample_draws seeded_db
                    5 7 0 0)).
    discriminate.
  - apply (proj2 (seed_db_guard sample_draws sample_draws empty_db
                    3 2 5 7)).
    + reflexivity.
    + exact sample_draws_in_range.
    + lia.
Defined.

(** ** Transactions *)

(** X12. The program leaves no transaction open: after [load_customers],
    [load_orders] and [demo_tx_and_params], on any connection and whether
    they raised or not, the connection sees exactly the committed tables;
    so does every connection the program reaches. *)
Theorem writes_close_transaction (conn : connection) :
  (forall rows, idle (fst (load_customers conn rows))) /\
  (forall rows, idle (fst (load_orders conn rows))) /\
  (forall today, idle (demo_conn (demo_tx_and_params today conn))) /\
  (reachable conn -> idle conn).
Proof.
  split; [intros rows; apply bulk_load_idle|].
  split; [intros rows; apply bulk_load_idle|].
  split; [intros today; rewrite demo_result_eq; reflexivity|].
  apply reachable_idle.
Qed.

Lemma writes_close_transaction_witness :
  reachable loaded_conn /\ idle loaded_conn.
Proof.
  split; [exact loaded_conn_reachable|].
  exact (proj2 (proj2 (proj2 (writes_close_transaction loaded_conn)))
           loaded_conn_reachable).
Defined.

(** ** Customers without a PAID order *)

Lemma city_row_ranked (d : db) (c : customer) :
  customers_pk d -> In c (customers d) -> has_order d c = true ->
  exists rn,
    1 <= rn <= Z.of_nat (List.length (city_customers d (c_city c))) /\
    In (mkRankRow (c_city c) (full_name c) (customer_revenue d c) rn)
       (window_subquery d).
Proof.
  intros Hpk Hc Ho.
  pose proof (row_number_slice (city_rows d) (c_city c)) as Hslice.
  rewrite <- (window_subquery_rows d Hpk) in Hslice.
  fold (city_customers d (c_city c)) in Hslice.
  assert (Hin : In (city_row d c)
                   (sort_by cr_revenue_desc (city_customers d (c_city c)))).
  { apply sort_by_in. unfold city_customers, city_rows.
    apply filter_In. split.
    - apply in_map, filter_In. auto.
    - apply opt_text_eqb_refl. }
  apply In_nth_error in Hin. destruct Hin as [i Hi].
  assert (Hlt : (i < List.length (city_customers d (c_city c)))%nat).
  { rewrite <- (sort_by_length cr_revenue_desc).
    apply nth_error_Some. congruence. }
  exists (1 + Z.of_nat i). split; [lia|].
  assert (Hs : In (ranked (city_row d c, 1 + Z.of_nat i))
                  (filter (fun r => opt_text_eqb (rk_city r) (c_city c))
                          (window_subquery d))).
  { rewrite Hslice. apply in_map, number_from_in. exists i. auto. }
  apply filter_In in Hs. exact (proj1 Hs).
Qed.

(** X13. Only [top_customers] filters on the revenue. A customer that owns
    orders but none that is PAID has the revenue 0 and no row in
    [top_customers], yet is a row of the ranked subquery of
    [window_rank_in_city] with that revenue and a rank within the number
    of ranked customers of its city (so it is in the result when the rank
    is at most 3), and each of its orders gives its city a cell in
    [category_city_matrix]. *)
Theorem unpaid_customer_reported (d : db) (c : customer) :
  customers_pk d -> In c (customers d) -> has_order d c = true ->
  (forall o, In o (orders d) -> o_customer_id o = c_customer_id c ->
             o_status o <> "PAID") ->
  customer_revenue d c = 0%Q /\
  (forall r, In r (top_customers d) -> tc_customer_id r <> c_customer_id c) /\
  (exists rn,
     1 <= rn <= Z.of_nat (List.length (city_customers d (c_city c))) /\
     In (mkRankRow (c_city c) (full_name c) 0 rn) (window_subquery d) /\
     (rn <= 3 ->
      In (mkRankRow (c_city c) (full_name c) 0 rn)
         (window_rank_in_city d))) /\
  (forall o, In o (orders d) -> o_customer_id o = c_customer_id c ->
     exists r, In r (category_city_matrix d) /\
               mx_city r = c_city c /\ mx_category r = o_category o).
Proof.
  intros Hpk Hc Ho Hunpaid.
  assert (Hzero : customer_revenue d c = 0%Q).
  { unfold customer_revenue. apply paid_sum_unpaid. intros o Hin.
    unfold orders_of in Hin. apply filter_In in Hin.
    destruct Hin as [Hin E]. apply Z.eqb_eq in E.
    destruct (is_paid o) eqn:P; [|reflexivity].
    apply text_eqb_eq in P. now destruct (Hunpaid o Hin E). }
  split; [exact Hzero|]. split; [|split].
  - intros r Hr E.
    destruct (top_customers_rows d r Hpk Hr) as (c' & Hc' & _ & -> & Hpos).
    simpl in E, Hpos.
    assert (c' = c)
      by (apply (nodup_map_inj c_customer_id (customers d)); auto).
    subst c'. rewrite Hzero in Hpos. now apply Qlt_irrefl in Hpos.
  - destruct (city_row_ranked d c Hpk Hc Ho) as (rn & Hrn & Hin).
    rewrite Hzero in Hin.
    exists rn. split; [exact Hrn|]. split; [exact Hin|].
    intros Hle. now apply subquery_in_result.
  - intros o Hin Eo.
    exists (mkMatrixRow (c_city c) (o_category o)
                        (cell_revenue d (c_city c) (o_category o))).
    split; [|auto]. apply matrix_in. simpl. split; [|reflexivity].
    exists c, o. split; [|auto]. apply in_join. auto.
Qed.

Lemma unpaid_customer_reported_witness :
  customers_pk unpaid_customer_db /\
  exists rn,
    In (mkRankRow (Some "Santiago") "Luis Rojas" 0 rn)
       (window_rank_in_city unpaid_customer_db).
Proof.
  assert (Hpk : customers_pk unpaid_customer_db).
  { unfold customers_pk. simpl. repeat constructor; simpl; intuition lia. }
  split; [exact Hpk|].
  destruct (unpaid_customer_reported unpaid_customer_db
              (mkCustomer 2 "Luis" "Rojas" "user1@example.com"
                          (Some "Santiago") "2023-01-02")
              Hpk (or_intror (or_introl eq_refl)) eq_refl
              ltac:(simpl; intros o [<-|[<-|[]]]; simpl;
                    [lia | discriminate]))
    as (_ & _ & (rn & Hrn & _ & Hres) & _).
  exists rn. apply Hres. simpl in Hrn. lia.
Defined.

(** ** The best customer and the ranking of its city *)

(** X14. The first row of [top_customers] and the ranking agree: its city
    has a row of rank 1 in [window_rank_in_city], and that row has the
    same revenue. *)
Theorem best_customer_is_rank_one (d : db) (r : top_row)
  (rest : list top_row) :
  customers_pk d -> top_customers d = r :: rest ->
  exists w, In w (window_rank_in_city d) /\
            rk_city w = tc_city r /\ rk_rn w = 1 /\
            (rk_revenue w == tc_revenue r)%Q.
Proof.
  intros Hpk Htop.
  assert (Hr : In r (top_customers d)) by (rewrite Htop; now left).
  destruct (top_customers_rows d r Hpk Hr) as (c & Hc & Ho & -> & Hpos).
  cbn [tc_city tc_revenue revenue_row] in *.
  set (k := c_city c).
  assert (Hin : In (city_row d c) (sort_by cr_revenue_desc
                                     (city_customers d k))).
  { apply sort_by_in. unfold city_customers, city_rows.
    apply filter_In. split.
    - apply in_map, filter_In. auto.
    - apply opt_text_eqb_refl. }
  pose proof (window_slice d k Hpk) as Hslice.
  assert (Hord : ordered_by cr_revenue_desc
                   (sort_by cr_revenue_desc (city_customers d k))).
  { apply sort_by_ordered;
      [apply cr_revenue_desc_total | apply cr_revenue_desc_trans]. }
  assert (Hsub : forall b, In b (sort_by cr_revenue_desc (city_customers d k))
                   -> In b (city_customers d k))
    by (intros b; apply sort_by_in).
  destruct (sort_by cr_revenue_desc (city_customers d k)) as [|a S] eqn:ES;
    [contradiction|].
  cbn [firstn number_from map] in Hslice.
  assert (Hw : In (ranked (a, 1)) (window_rank_in_city d)).
  { assert (H : In (ranked (a, 1))
                   (filter (fun x => opt_text_eqb (rk_city x) k)
                           (window_rank_in_city d)))
      by (rewrite Hslice; now left).
    apply filter_In in H. exact (proj1 H). }
  assert (Ha : In a (city_customers d k)) by (apply Hsub; now left).
  unfold city_customers, city_rows in Ha. apply filter_In in Ha.
  destruct Ha as [Ha Hk]. apply opt_text_eqb_eq in Hk.
  apply in_map_iff in Ha. destruct Ha as [c' [<- Hc']].
  apply filter_In in Hc'. destruct Hc' as [Hc' Ho'].
  exists (ranked (city_row d c', 1)). split; [exact Hw|].
  split; [exact Hk|]. split; [reflexivity|].
  cbn [ranked rk_revenue fst city_row cr_revenue].
  assert (Hge : (customer_revenue d c <= customer_revenue d c')%Q).
  { destruct Hin as [E|Hin].
    - apply (f_equal cr_revenue) in E. simpl in E. rewrite E.
      apply Qle_refl.
    - unfold ordered_by in Hord. inversion Hord as [|? ? _ Hall]; subst.
      rewrite Forall_forall in Hall. specialize (Hall _ Hin).
      unfold cr_revenue_desc in Hall. simpl in Hall.
      now apply Qle_bool_iff in Hall. }
  assert (Hle : (customer_revenue d c' <= customer_revenue d c)%Q).
  { rewrite (top_customers_eq d Hpk) in Htop.
    assert (Hcand : In (revenue_row d c')
                       (sort_by revenue_desc (revenue_candidates d))).
    { apply sort_by_in, in_revenue_candidates. exists c'.
      repeat split; auto. eapply Qlt_le_trans; eauto. }
    assert (Hord' : ordered_by revenue_desc
                      (sort_by revenue_desc (revenue_candidates d))).
    { apply sort_by_ordered;
        [apply revenue_desc_total | apply revenue_desc_trans]. }
    destruct (sort_by revenue_desc (revenue_candidates d)) as [|r0 S0];
      [contradiction|].
    simpl in Htop. inversion Htop; subst r0.
    destruct Hcand as [E|Hcand].
    - apply (f_equal tc_revenue) in E. simpl in E. rewrite E.
      apply Qle_refl.
    - unfold ordered_by in Hord'. inversion Hord' as [|? ? _ Hall]; subst.
      rewrite Forall_forall in Hall. specialize (Hall _ Hcand).
      unfold revenue_desc in Hall. simpl in Hall.
      now apply Qle_bool_iff in Hall. }
  now apply Qle_antisym.
Qed.

Lemma best_customer_is_rank_one_witness :
  customers_pk two_customers_db /\
  exists w, In w (window_rank_in_city two_customers_db) /\
            rk_city w = None /\ rk_rn w = 1 /\ (rk_revenue w == 100)%Q.
Proof.
  assert (Hpk : customers_pk two_customers_db).
  { unfold customers_pk. simpl. repeat constructor; simpl; intuition lia. }
  split; [exact Hpk|].
  exact (best_customer_is_rank_one two_customers_db
           (mkTopRow 2 "Luis Rojas" None 100)
           [mkTopRow 1 "Ana Soto" (Some "Santiago") 50] Hpk eq_refl).
Defined.

(** ** explain_plan *)

Lemma split_lines_line (s : string) :
  has_newline s = false -> split_lines s = [s].
Proof.
  induction s as [|c s IH]; simpl; [reflexivity|].
  intros H. apply orb_false_iff in H. destruct H as [Hc Hs].
  now rewrite Hc, (IH Hs).
Qed.

Lemma split_lines_append (s t : string) :
  has_newline s = false ->
  split_lines (s ++ newline ++ t) = s :: split_lines t.
Proof.
  induction s as [|c s IH]; simpl; intros H.
  - reflexivity.
  - apply orb_false_iff in H. destruct H as [Hc Hs].
    rewrite Hc. simpl in IH. now rewrite (IH Hs).
Qed.

(** X15. The text of [explain_plan] has one line per step of the plan, in
    order, each the detail of the step and nothing of its other columns,
    when the plan has a step and no detail holds a newline; the text of a
    plan without step is empty. *)
Theorem explain_plan_lines (rows : list plan_row) :
  rows <> [] ->
  forallb (fun r => negb (has_newline (pr_detail r))) rows = true ->
  split_lines (explain_plan rows) = map pr_detail rows /\
  explain_plan [] = EmptyString.
Proof.
  intros Hne H. split; [|reflexivity]. unfold explain_plan.
  induction rows as [|r rows IH]; [contradiction|].
  simpl in H. apply andb_true_iff in H. destruct H as [Hr Hrows].
  apply negb_true_iff in Hr.
  destruct rows as [|r' rows].
  - simpl. now apply split_lines_line.
  - cbn [map String.concat]. cbn [map] in IH.
    rewrite (split_lines_append _ _ Hr). f_equal.
    apply IH; [discriminate | exact Hrows].
Qed.

Lemma explain_plan_lines_witness :
  split_lines (explain_plan sample_plan) =
  [ "SCAN o USING INDEX idx_orders_date"; "USE TEMP B-TREE FOR GROUP BY" ].
Proof.
  exact (proj1 (explain_plan_lines sample_plan ltac:(discriminate) eq_refl)).
Defined.

(** ** category_city_matrix, in full *)



(** ** LIMIT 10 *)



(** ** Revenue after a write *)



(** ** Loaded orders in the report *)


